(** * Autocomplete engine: normalisation, single-edit matcher, scoring, ranking

    A shallow embedding of [autocomplete.py] and of the loop of [main.py],
    the properties of them that the specification states, and further
    properties that the code shows.

    Modelling choices:
    - a Python [str] is the list of its code points, taken below 256 (the
      type [ascii]); [str.lower], [str.split] and [str.strip] are Python's
      on that range;
    - a Python [int] is a [Z]; list indexing follows Python (a negative
      index counts from the end, an index out of range raises
      [IndexError]), and a call returns a value or raises;
    - [print] encodes its text for standard output and raises
      [UnicodeEncodeError] when that fails; the stream is taken to be open
      and writable, and which texts its encoding has is a parameter
      ([Stdout]); what is printed leaves no other trace in the model;
    - the [word_index] dictionary is a finite map from strings to lists of
      sentence identifiers;
    - the order in which a [set] of integers is iterated is left open: the
      definitions take it as a parameter ([SetOrder]) and the theorems
      hold for every such order;
    - the build takes what [os.walk] and the files deliver (directories,
      file names, lines) and gives the state that the loops of the build
      leave; its progress lines are not modelled;
    - the interactive loop is taken for the lines that [input] delivers,
      in order, on the system that the start-up has prepared; a round is
      recorded by what it computes (the buffer, and the completions that
      the query gives); the prompt and the lines of a round are printed
      as above.  The cache ([save_cache], [load_cache] and the start-up
      that chooses between them) is left out: it goes through [pickle],
      [gzip] and the file system. *)

From Stdlib Require Import ZArith List Ascii String Bool Lia Permutation.
From Stdlib Require Import DecimalString.
From stdpp Require Import gmap strings list fin_maps sorting.

Local Open Scope Z_scope.

(** ** Python strings *)

Module PyStr.

(** A string is the sequence of its code points. *)
Abbreviation str := (list ascii).

Definition lit (s : string) : str := list_ascii_of_string s.

Definition code (c : ascii) : nat := nat_of_ascii c.

(** [string.punctuation]; the second character is the double quote. *)
Definition punctuation : str :=
  lit "!" ++ [ascii_of_nat 34] ++ lit "#$%&'()*+,-./:;<=>?@[\]^_`{|}~".

Definition is_punct (c : ascii) : bool :=
  existsb (fun p => Ascii.eqb p c) punctuation.

(** [s.translate(_PUNCT_TABLE)]: the table deletes every punctuation
    character and maps nothing else. *)
Definition translate_punct (s : str) : str :=
  List.filter (fun c => negb (is_punct c)) s.

(** [str.lower] on code points below 256: the letters A-Z and the
    Latin-1 capitals U+00C0..U+00DE (the sign U+00D7 apart) move up by 32.
    On this range the result for a character does not depend on its
    neighbours; beyond it [str.lower] looks at the context (the capital
    sigma U+03A3), so nothing is stated here about the lower-casing of
    text outside the range. *)
Definition lower_char (c : ascii) : ascii :=
  let n := code c in
  if (((65 <=? n) && (n <=? 90)) ||
      ((192 <=? n) && (n <=? 222) && negb (n =? 215)))%nat
  then ascii_of_nat (n + 32) else c.

Definition lower (s : str) : str := List.map lower_char s.

(** The characters [str.split] and [str.strip] treat as whitespace
    (those for which [str.isspace] holds), below 256. *)
Definition is_space (c : ascii) : bool :=
  let n := code c in
  (((9 <=? n) && (n <=? 13)) || ((28 <=? n) && (n <=? 32)) ||
   (n =? 133) || (n =? 160))%nat.

(** [s.split()] with no separator: the maximal runs of non-whitespace
    characters, in order; no empty word is produced. *)
Fixpoint split (s : str) : list str :=
  match s with
  | [] => []
  | c :: t =>
      if is_space c then split t
      else match t with
           | [] => [[c]]
           | d :: _ =>
               if is_space d then [c] :: split t
               else match split t with
                    | w :: ws => (c :: w) :: ws
                    | [] => [[c]]
                    end
           end
  end.

(** [sep.join(ws)]. *)
Fixpoint join (sep : str) (ws : list str) : str :=
  match ws with
  | [] => []
  | w :: ws' =>
      match ws' with
      | [] => w
      | _ :: _ => w ++ sep ++ join sep ws'
      end
  end.

(** [s.strip()]: whitespace removed at both ends. *)
Fixpoint lstrip (s : str) : str :=
  match s with
  | [] => []
  | c :: t => if is_space c then lstrip t else s
  end.

Definition strip (s : str) : str := rev (lstrip (rev (lstrip s))).

Fixpoint startswith (s p : str) : bool :=
  match p, s with
  | [], _ => true
  | _ :: _, [] => false
  | a :: p', b :: s' => Ascii.eqb a b && startswith s' p'
  end.

Definition endswith (s p : str) : bool := startswith (rev s) (rev p).

(** [needle in hay]: [needle] occurs in [hay] as a contiguous block. *)
Fixpoint contains (needle hay : str) : bool :=
  startswith hay needle ||
  match hay with
  | [] => false
  | _ :: t => contains needle t
  end.

Definition eqb (a b : str) : bool := bool_decide (a = b).

(** [a < b] on strings: lexicographic on code points. *)
Fixpoint ltb (a b : str) : bool :=
  match a, b with
  | _, [] => false
  | [], _ :: _ => true
  | x :: a', y :: b' =>
      (code x <? code y)%nat || ((code x =? code y)%nat && ltb a' b')
  end.

(** Slices [s[i:]] and [s[i:j]] for indices [0 <= i <= j]. *)
Definition slice_from (s : str) (i : nat) : str := drop i s.
Definition slice (s : str) (i j : nat) : str := take (j - i) (drop i s).

(** [len(s)] as a Python integer. *)
Definition len (s : str) : Z := Z.of_nat (length s).

End PyStr.
Import PyStr.

(** ** Normalisation *)

(** [normalize_text]: punctuation removed, lower case, runs of whitespace
    collapsed to single spaces. *)
Definition normalize_text (s : str) : str :=
  join (lit " ") (split (lower (translate_punct s))).

(** ** Python integers, list indexing and exceptions *)

Inductive exn : Type := IndexError | UnicodeEncodeError.

(** The outcome of a call: a value, or a raised exception. *)
Inductive result (A : Type) : Type :=
| Ok (a : A)
| Raise (e : exn).
Arguments Ok {A} a.
Arguments Raise {A} e.

#[global] Instance result_ret : MRet result := fun A a => Ok a.
#[global] Instance result_bind : MBind result := fun A B f m =>
  match m with
  | Ok a => f a
  | Raise e => Raise e
  end.

(** ** Standard output *)

(** [sys.stdout] is a text stream with an encoding, and [print] raises
    [UnicodeEncodeError] for a text that the encoding cannot take (under
    UTF-8, a text with a lone surrogate; under ASCII, one with a code
    point from 128 on).  [encodable text] says whether the line [text]
    can be written. *)
Class Stdout : Type := { encodable : str -> bool }.

(** [print(text)]. *)
Definition print `{Stdout} (text : str) : result unit :=
  if encodable text then Ok tt else Raise UnicodeEncodeError.

(** A stream encoded in Latin-1, which has every code point below 256. *)
Definition latin1_stdout : Stdout := {| encodable := fun _ => true |}.


(** [l[i]]: a negative index counts from the end; outside
    [-len(l) <= i < len(l)] the access raises [IndexError]. *)
Definition py_index {A : Type} (l : list A) (i : Z) : result A :=
  let n := Z.of_nat (length l) in
  let j := if i <? 0 then i + n else i in
  if (0 <=? j) && (j <? n) then
    match l !! Z.to_nat j with
    | Some x => Ok x
    | None => Raise IndexError
    end
  else Raise IndexError.

(** [range(n)]. *)
Definition range (n : Z) : list Z := List.map Z.of_nat (seq 0 (Z.to_nat n)).

(** The iteration order of a Python [set] of integers is not fixed by the
    language.  [set_iter l] is the sequence in which the set built by
    inserting the elements of [l] is iterated: some duplicate-free
    enumeration of the elements of [l]. *)
Class SetOrder : Type := {
  set_iter : list Z -> list Z;
  set_iter_NoDup : forall l, NoDup (set_iter l);
  set_iter_elem : forall l x, x ∈ set_iter l <-> x ∈ l
}.

(** One admissible order (the last occurrence of each element is kept). *)
#[refine] Instance dedup_order : SetOrder := {| set_iter := remove_dups |}.
Proof.
  - apply NoDup_remove_dups.
  - intros l x. apply elem_of_remove_dups.
Defined.

(** Another one: ascending order. *)
#[refine] Instance ascending_order : SetOrder :=
  {| set_iter := fun l => merge_sort Z.le (remove_dups l) |}.
Proof.
  - intros l. rewrite merge_sort_Permutation. apply NoDup_remove_dups.
  - intros l x. rewrite merge_sort_Permutation. apply elem_of_remove_dups.
Defined.

(** ** Penalties *)

Inductive EditKind : Type := Exact | Substitution | Insertion | Deletion.

#[global] Instance EditKind_eq_dec : EqDecision EditKind.
Proof. solve_decision. Defined.

Definition _SUB_PENALTIES : list Z := [5; 4; 3; 2; 1].
Definition _INSDEL_PENALTIES : list Z := [10; 8; 6; 4; 2].

Definition penalty_for (kind : EditKind) (pos : Z) : result Z :=
  let idx := pos - 1 in
  match kind with
  | Substitution =>
      if idx <? Z.of_nat (length _SUB_PENALTIES)
      then py_index _SUB_PENALTIES idx else py_index _SUB_PENALTIES (-1)
  | Insertion | Deletion =>
      if idx <? Z.of_nat (length _INSDEL_PENALTIES)
      then py_index _INSDEL_PENALTIES idx else py_index _INSDEL_PENALTIES (-1)
  | Exact => Ok 0
  end.

(** ** The single-edit matcher *)

(** [prefix[i] != candidate[i]], for an index in range of both. *)
Definition differ_at (prefix candidate : str) (i : nat) : bool :=
  negb (bool_decide (prefix !! i = candidate !! i)).

(** [[i for i in range(lp) if prefix[i] != candidate[i]]]. *)
Definition diffs (prefix candidate : str) : list nat :=
  List.filter (differ_at prefix candidate) (seq 0 (length prefix)).

(** [while i < n and prefix[i] == candidate[i]: i += 1], run for at most
    [fuel] iterations from [i]; the value of [i] on exit. *)
Fixpoint common_run (fuel n i : nat) (prefix candidate : str) : nat :=
  match fuel with
  | O => i
  | S fuel' =>
      if (i <? n)%nat && negb (differ_at prefix candidate i)
      then common_run fuel' n (S i) prefix candidate
      else i
  end.

Definition single_edit_match_info (prefix candidate : str)
  : option (EditKind * Z) :=
  if PyStr.eqb prefix candidate then Some (Exact, 0)
  else
    let lp := len prefix in
    let lc := len candidate in
    if Z.abs (lp - lc) >? 1 then None
    else if lp =? lc then
      match diffs prefix candidate with
      | [d] => Some (Substitution, Z.of_nat d + 1)
      | _ => None
      end
    else if lp + 1 =? lc then
      let i := common_run (length prefix) (length prefix) 0 prefix candidate in
      if PyStr.eqb (slice_from prefix i) (slice_from candidate (i + 1))
      then Some (Insertion, Z.of_nat i + 1) else None
    else if lp =? lc + 1 then
      let i := common_run (length candidate) (length candidate) 0 prefix candidate in
      if PyStr.eqb (slice_from prefix (i + 1)) (slice_from candidate i)
      then Some (Deletion, Z.of_nat i + 1) else None
    else None.

(** ** The system state and the corpus build *)

Record AutoCompleteData : Type := mkAutoCompleteData {
  completed_sentence : str;
  source_text : str;
  offset : Z;
  score : Z
}.

Record AutoCompleteSystem : Type := mkSystem {
  sentences : list (str * str * Z);
  word_index : gmap str (list Z)
}.

(** [AutoCompleteSystem()]. *)
Definition init : AutoCompleteSystem :=
  {| sentences := []; word_index := ∅ |}.

(** [index.get(k, [])]. *)
Definition index_get (m : gmap str (list Z)) (k : str) : list Z :=
  default [] (m !! k).

(** [index.setdefault(k, []).append(v)]. *)
Definition setdefault_append (k : str) (v : Z) (m : gmap str (list Z))
  : gmap str (list Z) :=
  <[k := index_get m k ++ [v]]> m.

(** The body of [for w in words]. *)
Definition index_word (idx : Z) (m : gmap str (list Z)) (w : str)
  : gmap str (list Z) :=
  if ((length w =? 1) || (length w =? 2))%nat then setdefault_append w idx m
  else if (3 <=? length w)%nat then
    foldl (fun m j => setdefault_append (slice w j (j + 3)) idx m) m
          (seq 0 (length w - 3 + 1))
  else m.

(** [enumerate(lines)]. *)
Definition enumerate {A : Type} (l : list A) : list (nat * A) :=
  combine (seq 0 (length l)) l.

(** The body of [for i, line in enumerate(f)]. *)
Definition ingest_line (fullpath : str) (self : AutoCompleteSystem)
    (il : nat * str) : AutoCompleteSystem :=
  let line_stripped := strip il.2 in
  match line_stripped with
  | [] => self
  | _ :: _ =>
      let idx := Z.of_nat (length (sentences self)) in
      let norm := normalize_text line_stripped in
      let words := split norm in
      {| sentences := sentences self ++ [(line_stripped, fullpath, Z.of_nat il.1)];
         word_index := foldl (index_word idx) (word_index self) words |}
  end.

(** [os.path.join(dirpath, fname)] on a POSIX system. *)
Definition os_path_join (a b : str) : str :=
  if startswith b (lit "/") then b
  else if PyStr.eqb a [] || endswith a (lit "/") then a ++ b
  else a ++ lit "/" ++ b.

(** What [os.walk] and the file system hand to the build: for every
    directory its path and, for every file in it, the name and the lines
    read from it before any failure (none for a file that cannot be
    opened). *)
Definition Walk : Type := list (str * list (str * list str)).

(** The body of [for fname in filenames]. *)
Definition build_file (dirpath : str) (self : AutoCompleteSystem)
    (f : str * list str) : AutoCompleteSystem :=
  if negb (endswith (lower f.1) (lit ".txt")) then self
  else foldl (ingest_line (os_path_join dirpath f.1)) self (enumerate f.2).

Definition build_from_folder (self : AutoCompleteSystem) (walk : Walk)
  : AutoCompleteSystem :=
  foldl (fun self d => foldl (build_file d.1) self d.2) self walk.

(** ** Queries *)

Section Query.

Context {SO : SetOrder} {OUT : Stdout}.

(** Lines 166-189: the candidate identifiers for the first word of the
    normalised query, in the order in which they are then visited.  The
    notice that two of the branches print is [fallback_notice] below. *)
Definition candidate_idxs (self : AutoCompleteSystem) (first_word : str)
  : list Z :=
  let everything := set_iter (range (Z.of_nat (length (sentences self)))) in
  if ((length first_word =? 1) || (length first_word =? 2))%nat then
    match index_get (word_index self) first_word with
    | [] => everything
    | indices => set_iter indices
    end
  else
    let inserted :=
      if (3 <=? length first_word)%nat
      then index_get (word_index self) (take 3 first_word) else [] in
    match inserted with
    | [] => everything
    | _ :: _ => set_iter inserted
    end.

Section PerCandidate.

(** The function called at line 207; it is a parameter here so that
    one can say when it is not called at all. *)
Variable matcher : str -> str -> option (EditKind * Z).
Variables prefix_norm sentence_norm : str.

(** [for start in range(len(sentence_norm) - L + 1)], lines 205-215:
    the score appended, if any. *)
Fixpoint scan_starts (L : nat) (starts : list nat) : result (option Z) :=
  match starts with
  | [] => Ok None
  | start :: rest =>
      let sub := slice sentence_norm start (start + L) in
      match matcher prefix_norm sub with
      | Some (Exact, _) | None => scan_starts L rest
      | Some (kind, pos) =>
          let base_score := 2 * len prefix_norm in
          p ← penalty_for kind pos;
          Ok (Some (base_score - p))
      end
  end.

(** [for L in {lp, lp + 1, lp - 1}], lines 201-218, over the lengths
    in the order the set yields them. *)
Fixpoint scan_lengths (Ls : list Z) : result (option Z) :=
  match Ls with
  | [] => Ok None
  | L :: rest =>
      if (L <=? 0) || (L >? len sentence_norm) then scan_lengths rest
      else
        r ← scan_starts (Z.to_nat L)
              (seq 0 (Z.to_nat (len sentence_norm - L + 1)));
        match r with
        | Some s => Ok (Some s)
        | None => scan_lengths rest
        end
  end.

(** Lines 195-218: the score a candidate contributes, if any. *)
Definition score_candidate_with : result (option Z) :=
  let lp := len prefix_norm in
  if contains prefix_norm sentence_norm then Ok (Some (2 * lp))
  else scan_lengths (set_iter [lp; lp + 1; lp - 1]).

End PerCandidate.

Definition score_candidate : str -> str -> result (option Z) :=
  score_candidate_with single_edit_match_info.

(** [for idx in candidate_idxs], lines 191-218. *)
Fixpoint score_candidates (self : AutoCompleteSystem) (prefix_norm : str)
    (idxs : list Z) (results : list AutoCompleteData)
  : result (list AutoCompleteData) :=
  match idxs with
  | [] => Ok results
  | idx :: rest =>
      '(sentence, src, offset) ← py_index (sentences self) idx;
      let sentence_norm := normalize_text sentence in
      r ← score_candidate prefix_norm sentence_norm;
      match r with
      | Some score =>
          score_candidates self prefix_norm rest
            (results ++ [mkAutoCompleteData sentence src offset score])
      | None => score_candidates self prefix_norm rest results
      end
  end.

(** The sort key [(-x.score, x.completed_sentence.lower())] and the
    order of two such tuples. *)
Definition sort_key (x : AutoCompleteData) : Z * str :=
  (- score x, lower (completed_sentence x)).

Definition key_ltb (a b : Z * str) : bool :=
  (a.1 <? b.1) || ((a.1 =? b.1) && ltb a.2 b.2).

(** [results.sort(key=...)]: the sort is stable, so its result is that
    of inserting the elements, last first, each before the first
    element that is not strictly smaller. *)
Fixpoint insert_sorted (x : AutoCompleteData) (l : list AutoCompleteData)
  : list AutoCompleteData :=
  match l with
  | [] => [x]
  | y :: l' =>
      if key_ltb (sort_key y) (sort_key x) then y :: insert_sorted x l'
      else x :: y :: l'
  end.

Definition py_sort (l : list AutoCompleteData) : list AutoCompleteData :=
  foldr insert_sorted [] l.

(** [for r in results], lines 224-230. *)
Fixpoint dedup_loop (results : list AutoCompleteData) (seen : gset str)
    (final_results : list AutoCompleteData) : list AutoCompleteData :=
  match results with
  | [] => final_results
  | r :: rest =>
      let key := completed_sentence r in
      let '(final_results, seen) :=
        if decide (key ∈ seen) then (final_results, seen)
        else (final_results ++ [r], {[key]} ∪ seen) in
      if 5 <=? Z.of_nat (length final_results) then final_results
      else dedup_loop rest seen final_results
  end.

(** Lines 175 and 186: the text printed on the two branches of lines
    166-189 where the lookup gave nothing and every sentence becomes a
    candidate; the other branches print nothing. *)
Definition fallback_notice (self : AutoCompleteSystem) (first_word : str)
  : option str :=
  let notice :=
    lit "No direct matches found for '" ++ first_word ++
    lit "', checking all sentences for single edit matches..." in
  if ((length first_word =? 1) || (length first_word =? 2))%nat then
    match index_get (word_index self) first_word with
    | [] => Some notice
    | _ :: _ => None
    end
  else
    let inserted :=
      if (3 <=? length first_word)%nat
      then index_get (word_index self) (take 3 first_word) else [] in
    match inserted with
    | [] => Some notice
    | _ :: _ => None
    end.

(** The [print] of lines 175 and 186, where it is reached. *)
Definition print_fallback_notice (self : AutoCompleteSystem)
    (first_word : str) : result unit :=
  match fallback_notice self first_word with
  | Some notice => print notice
  | None => Ok tt
  end.

Definition get_best_k_completions (self : AutoCompleteSystem) (prefix : str)
  : result (list AutoCompleteData) :=
  let prefix_norm := normalize_text prefix in
  match prefix_norm with
  | [] => Ok []
  | _ :: _ =>
      first_word ← py_index (split prefix_norm) 0;
      _ ← print_fallback_notice self first_word;
      let idxs := candidate_idxs self first_word in
      results ← score_candidates self prefix_norm idxs [];
      Ok (dedup_loop (py_sort results) ∅ [])
  end.

End Query.

(** ** The interactive loop (src/main.py) *)

(** What one round of the loop does with the line read: it resets the
    buffer, or it extends the buffer and queries the system with it, which
    gives [completions] (line 29). *)
Inductive round : Type :=
| BufferReset
| Completions (completions : list AutoCompleteData).

(** Line 27: the buffer once the line read is appended, after a space
    when the buffer is not empty and the line does not start with one. *)
Definition append_input (buffer user_in : str) : str :=
  buffer ++
  (if negb (eqb buffer []) && negb (startswith user_in (lit " "))
   then lit " " else []) ++
  user_in.

(** [str(n)] for an integer, as a format string inserts it: the decimal
    digits, after a minus sign for a negative number. *)
Definition str_of_int (n : Z) : str :=
  lit (NilZero.string_of_int (Z.to_int n)).

(** Line 19: the prompt of [input]. *)
Definition prompt (buffer : str) : str := lit "[" ++ buffer ++ lit "] > ".

(** Line 32: the line printed for completion number [i]. *)
Definition completion_line (i : Z) (c : AutoCompleteData) : str :=
  str_of_int i ++ lit ". (score=" ++ str_of_int (score c) ++ lit ") " ++
  completed_sentence c ++ lit " -- " ++ source_text c ++
  lit " (line " ++ str_of_int (offset c) ++ lit ")".

Section Main.

Context {SO : SetOrder} {OUT : Stdout}.

(** Lines 31-32: [for i, c in enumerate(completions, 1): print(...)],
    from number [i] on. *)
Fixpoint print_completions (i : Z) (completions : list AutoCompleteData)
  : result unit :=
  match completions with
  | [] => Ok tt
  | c :: rest =>
      _ ← print (completion_line i c);
      print_completions (i + 1) rest
  end.

(** Lines 19-32: one round of the loop, for the line [user_in] that
    [input] reads after it has written the prompt to standard output; the
    system [acs] is the one the start-up has prepared. *)
Definition main_round (acs : AutoCompleteSystem) (buffer user_in : str)
  : result (str * round) :=
  _ ← print (prompt buffer);
  if eqb user_in (lit "#") then
    _ ← print (lit "Buffer reset.");
    Ok ([], BufferReset)
  else
    let buffer := append_input buffer user_in in
    completions ← get_best_k_completions acs buffer;
    _ ← print_completions 1 completions;
    Ok (buffer, Completions completions).

(** The rounds for the lines read, in order; the loop itself ends only
    with an exception. *)
Fixpoint main_loop (acs : AutoCompleteSystem) (buffer : str)
    (inputs : list str) : result (str * list round) :=
  match inputs with
  | [] => Ok (buffer, [])
  | user_in :: rest =>
      '(buffer, out) ← main_round acs buffer user_in;
      '(buffer, outs) ← main_loop acs buffer rest;
      Ok (buffer, out :: outs)
  end.

End Main.

(** ** Vocabulary of the statements *)

Section Vocabulary.

Context {SO : SetOrder}.

(** A word: not empty, and free of whitespace. *)
Definition is_word (w : str) : Prop :=
  w ≠ [] ∧ Forall (fun c => is_space c = false) w.

(** A character that normalisation leaves alone. *)
Definition clean (c : ascii) : Prop :=
  is_punct c = false ∧ lower_char c = c.

(** Position [i] (0-based) is in range and the strings differ there. *)
Definition mismatch (a b : str) (i : nat) : Prop :=
  (i < length a)%nat ∧ a !! i ≠ b !! i.

(** The strings agree on their first [j] characters. *)
Definition common_prefix (a b : str) (j : nat) : Prop :=
  (j <= length a)%nat ∧ (j <= length b)%nat ∧ take j a = take j b.

(** [i] is the length of the longest common prefix. *)
Definition is_lcp (a b : str) (i : nat) : Prop :=
  common_prefix a b i ∧ ∀ j, common_prefix a b j -> (j <= i)%nat.

(** The penalty tables as the specification lists them, for 1-based
    positions. *)
Definition penalty_table (kind : EditKind) (pos : Z) : Z :=
  match kind with
  | Substitution =>
      if pos =? 1 then 5 else if pos =? 2 then 4 else if pos =? 3 then 3
      else if pos =? 4 then 2 else 1
  | Insertion | Deletion =>
      if pos =? 1 then 10 else if pos =? 2 then 8 else if pos =? 3 then 6
      else if pos =? 4 then 4 else 2
  | Exact => 0
  end.

(** The window of [s] that starts at [start] and has length [L]. *)
Definition window (s : str) (start L : nat) : str :=
  slice s start (start + L).

(** The matcher reports a single edit (not an exact match, not [None]). *)
Definition edit_outcome (q w : str) (kind : EditKind) (pos : Z) : Prop :=
  single_edit_match_info q w = Some (kind, pos) ∧ kind ≠ Exact.

(** The matcher reports no single edit for the window [w]. *)
Definition no_edit (q w : str) : Prop :=
  ∀ kind pos, ¬ edit_outcome q w kind pos.

(** A window length that is tried: one of the three lengths, positive
    and no longer than the text. *)
Definition scanned_length (q s : str) (L : Z) : Prop :=
  L ∈ [len q - 1; len q; len q + 1] ∧ 0 < L <= len s.

(** Some window of a scanned length yields a single edit. *)
Definition some_window_edits (q s : str) : Prop :=
  ∃ L start kind pos,
    scanned_length q s L ∧ (start + Z.to_nat L <= length s)%nat ∧
    edit_outcome q (window s start (Z.to_nat L)) kind pos.

(** The score [sc] is that of the first window that yields a single
    edit: the lengths are taken in the order in which the set of the
    three lengths is iterated, and for one length the windows are taken
    by increasing start offset. *)
Definition first_window_score (q s : str) (sc : Z) : Prop :=
  ∃ before L after start kind pos,
    set_iter [len q; len q + 1; len q - 1] = before ++ L :: after ∧
    scanned_length q s L ∧ (start + Z.to_nat L <= length s)%nat ∧
    edit_outcome q (window s start (Z.to_nat L)) kind pos ∧
    sc = 2 * len q - penalty_table kind pos ∧
    (∀ start', (start' < start)%nat ->
               no_edit q (window s start' (Z.to_nat L))) ∧
    (∀ L' start', L' ∈ before -> scanned_length q s L' ->
                  (start' + Z.to_nat L' <= length s)%nat ->
                  no_edit q (window s start' (Z.to_nat L'))).

(** The reading of the specification, to compare with: the score [sc] is
    that of a window with the smallest start offset among the windows, of
    the three lengths, that yield a single edit. *)
Definition first_by_start_offset (q s : str) (sc : Z) : Prop :=
  ∃ L start kind pos,
    scanned_length q s L ∧ (start + Z.to_nat L <= length s)%nat ∧
    edit_outcome q (window s start (Z.to_nat L)) kind pos ∧
    sc = 2 * len q - penalty_table kind pos ∧
    ∀ L' start', (start' < start)%nat -> scanned_length q s L' ->
                 (start' + Z.to_nat L' <= length s)%nat ->
                 no_edit q (window s start' (Z.to_nat L')).

(** What visiting candidate [idx] adds to the results: nothing, or one
    entry carrying the candidate's sentence record and its score. *)
Definition contribution (self : AutoCompleteSystem) (q : str) (idx : Z)
    (c : option AutoCompleteData) : Prop :=
  ∃ sentence src offset r,
    py_index (sentences self) idx = Ok (sentence, src, offset) ∧
    score_candidate q (normalize_text sentence) = Ok r ∧
    c = mkAutoCompleteData sentence src offset <$> r.

(** The one index key looked up for the first word of the query. *)
Definition anchor_key (w : str) : str :=
  if (length w <=? 2)%nat then w else take 3 w.

(** Every sentence identifier of the system. *)
Definition all_ids (self : AutoCompleteSystem) (x : Z) : Prop :=
  0 <= x < Z.of_nat (length (sentences self)).


(** [k] is a key under which the word [w] is filed: [w] itself when it
    has one or two characters, any three consecutive characters of [w]
    when it has three or more. *)
Definition key_of_word (w k : str) : Prop :=
  ((length w = 1 ∨ length w = 2)%nat ∧ k = w) ∨
  ((3 <= length w)%nat ∧ ∃ j, (j + 3 <= length w)%nat ∧ k = slice w j (j + 3)).

(** [w] is a word of the normalised text of a stored sentence. *)
Definition stored_word (self : AutoCompleteSystem) (w : str) : Prop :=
  ∃ text src off,
    (text, src, off) ∈ sentences self ∧ w ∈ split (normalize_text text).

(** The keys of the index are exactly the keys of the stored words. *)
Definition keys_exact (self : AutoCompleteSystem) : Prop :=
  ∀ k, k ∈ dom (word_index self) <->
       ∃ w, stored_word self w ∧ key_of_word w k.

(** [b] is not smaller than [a], as strings. *)
Definition str_le (a b : str) : Prop := ltb b a = false.

(** [a] may stand before [b] in the ranking: a higher score, or the same
    score and a lower-cased sentence that is not greater. *)
Definition ranks_before (a b : AutoCompleteData) : Prop :=
  score b < score a ∨
  (score a = score b ∧
   str_le (lower (completed_sentence a)) (lower (completed_sentence b))).

(** The entries of [l] whose sentence occurs neither in [seen] nor
    earlier in [l]. *)
Fixpoint first_occurrences (seen : gset str) (l : list AutoCompleteData)
  : list AutoCompleteData :=
  match l with
  | [] => []
  | r :: rest =>
      if decide (completed_sentence r ∈ seen)
      then first_occurrences seen rest
      else r :: first_occurrences ({[completed_sentence r]} ∪ seen) rest
  end.

(** No two whitespace characters of [t] are adjacent. *)
Definition no_adjacent_spaces (t : str) : Prop :=
  ∀ pre c d post, t = pre ++ c :: d :: post ->
                  is_space c = true -> is_space d = false.

(** [t] has single spaces between words and none at either end: its only
    whitespace character is the space, it neither starts nor ends with
    one, and no two are adjacent. *)
Definition single_spaced (t : str) : Prop :=
  (∀ c, c ∈ t -> is_space c = true -> c = " "%char) ∧
  (∀ c rest, t = c :: rest -> is_space c = false) ∧
  (∀ pre c, t = pre ++ [c] -> is_space c = false) ∧
  no_adjacent_spaces t.

(** [b] is [a] with one character put in at position [i] (0-based). *)
Definition one_insertion (a b : str) (i : nat) : Prop :=
  (i <= length a)%nat ∧ ∃ x, b = take i a ++ x :: drop i a.

(** [b] is [a] with the character at position [i] (0-based) replaced by
    a different one. *)
Definition one_substitution (a b : str) (i : nat) : Prop :=
  ∃ x y, a !! i = Some x ∧ x ≠ y ∧ b = <[i:=y]> a.

(** The record a line of a file stands for: none for a line that is
    blank once stripped. *)
Definition line_record (fullpath : str) (il : nat * str)
  : option (str * str * Z) :=
  match strip il.2 with
  | [] => None
  | c :: t => Some (c :: t, fullpath, Z.of_nat il.1)
  end.

(** The records of one file: none unless its name ends in [.txt],
    whatever the case. *)
Definition file_records (dirpath : str) (f : str * list str)
  : list (str * str * Z) :=
  if endswith (lower f.1) (lit ".txt")
  then omap (line_record (os_path_join dirpath f.1)) (enumerate f.2)
  else [].

(** The records of a whole traversal, in traversal order. *)
Definition walk_records (walk : Walk) : list (str * str * Z) :=
  d ← walk; f ← d.2; file_records d.1 f.

(** The index files sentence [idx] under key [k] exactly when a word of
    the sentence's normalised text has [k] as a key. *)
Definition index_correct (self : AutoCompleteSystem) : Prop :=
  ∀ k idx,
    idx ∈ index_get (word_index self) k <->
    0 <= idx ∧
    ∃ text src off w,
      sentences self !! Z.to_nat idx = Some (text, src, off) ∧
      w ∈ split (normalize_text text) ∧ key_of_word w k.

(** The words of a text once its punctuation is removed and it is
    lower-cased. *)
Definition words_of (s : str) : list str := split (lower (translate_punct s)).

(** The words typed since the last reset, after the words [acc]. *)
Fixpoint typed_words (acc : list str) (inputs : list str) : list str :=
  match inputs with
  | [] => acc
  | user_in :: rest =>
      if eqb user_in (lit "#") then typed_words [] rest
      else typed_words (acc ++ words_of user_in) rest
  end.

End Vocabulary.

(** ** Worked corpora *)

Module Examples.

Definition newline : str := [ascii_of_nat 10].

Definition hamlet_line : str :=
  lit "To be or not to be, that is the question".

(** A corpus of one file holding exactly that line. *)
Definition hamlet : AutoCompleteSystem :=
  build_from_folder init
    [(lit "corpus", [(lit "test.txt", [hamlet_line ++ newline])])].

Definition hamlet_entry (score : Z) : AutoCompleteData :=
  mkAutoCompleteData hamlet_line (lit "corpus/test.txt") 0 score.

(** A corpus of one file holding the line [b]. *)
Definition letter_b : AutoCompleteSystem :=
  build_from_folder init
    [(lit "corpus", [(lit "test.txt", [lit "b" ++ newline])])].

(** Two text files and one file that is not indexed; a sentence occurs
    twice, and in other spellings. *)
Definition greetings : AutoCompleteSystem :=
  build_from_folder init
    [(lit "corpus",
      [(lit "a.txt", [lit "Hello world" ++ newline; newline;
                      lit "hello there" ++ newline;
                      lit "Hello world" ++ newline;
                      lit "help me" ++ newline]);
       (lit "notes.md", [lit "hello hidden"]);
       (lit "b.TXT", [lit "HELLO WORLD" ++ newline; lit "shell" ++ newline;
                      lit "he'll go" ++ newline; lit "hallo" ++ newline;
                      lit "Hello, world"])])].

Definition greetings_hello_w : list AutoCompleteData :=
  [mkAutoCompleteData (lit "Hello world") (lit "corpus/a.txt") 0 14;
   mkAutoCompleteData (lit "HELLO WORLD") (lit "corpus/b.TXT") 0 14;
   mkAutoCompleteData (lit "Hello, world") (lit "corpus/b.TXT") 4 14;
   mkAutoCompleteData (lit "hello there") (lit "corpus/a.txt") 2 13].

End Examples.

(** ** Theorems *)

Section CharFacts.

Lemma lower_char_idem c : lower_char (lower_char c) = lower_char c.
Proof. by destruct c as [[] [] [] [] [] [] [] []]. Qed.

Lemma lower_char_punct c : is_punct (lower_char c) = is_punct c.
Proof. by destruct c as [[] [] [] [] [] [] [] []]. Qed.

Lemma lower_char_space c : is_space (lower_char c) = is_space c.
Proof. by destruct c as [[] [] [] [] [] [] [] []]. Qed.

End CharFacts.

(** *** Splitting and joining *)

Section SplitJoin.

Lemma split_unfold c t :
  split (c :: t) =
  if is_space c then split t
  else match t with
       | [] => [[c]]
       | d :: _ =>
           if is_space d then [c] :: split t
           else match split t with
                | w :: ws => (c :: w) :: ws
                | [] => [[c]]
                end
       end.
Proof. reflexivity. Qed.

Lemma is_word_cons c w :
  is_space c = false -> Forall (fun c => is_space c = false) w ->
  is_word (c :: w).
Proof. intros Hc Hw. split; [done|by constructor]. Qed.

Lemma split_words s : Forall is_word (split s).
Proof.
  induction s as [|c t IH]; [constructor|].
  rewrite split_unfold.
  destruct (is_space c) eqn:Hc; [exact IH|].
  destruct t as [|d t'].
  { constructor; [|constructor]. by apply is_word_cons. }
  destruct (is_space d) eqn:Hd.
  { constructor; [|exact IH]. by apply is_word_cons. }
  destruct (split (d :: t')) as [|w ws].
  { constructor; [|constructor]. by apply is_word_cons. }
  inversion IH as [|? ? [Hne Hw] Hws]; subst.
  constructor; [|exact Hws]. by apply is_word_cons.
Qed.

Lemma split_chars s w c : w ∈ split s -> c ∈ w -> c ∈ s.
Proof.
  revert w. induction s as [|c0 t IH]; intros w Hw Hc.
  { by apply elem_of_nil in Hw. }
  rewrite split_unfold in Hw.
  destruct (is_space c0) eqn:Hc0.
  { right. by apply (IH w). }
  destruct t as [|d t'].
  { apply list_elem_of_singleton in Hw. by subst. }
  destruct (is_space d) eqn:Hd.
  { apply elem_of_cons in Hw as [->|Hw]; [|right; by apply (IH w)].
    apply list_elem_of_singleton in Hc. subst. by left. }
  destruct (split (d :: t')) as [|w0 ws] eqn:Hs.
  { apply list_elem_of_singleton in Hw. subst.
    apply list_elem_of_singleton in Hc. subst. by left. }
  apply elem_of_cons in Hw as [->|Hw].
  - apply elem_of_cons in Hc as [->|Hc]; [by left|].
    right. apply (IH w0); [by left|done].
  - right. apply (IH w); [by right|done].
Qed.

(** A word followed by nothing, or by whitespace, is split off whole. *)
Lemma split_word_app w t :
  is_word w ->
  (t = [] ∨ ∃ d t', t = d :: t' ∧ is_space d = true) ->
  split (w ++ t) = w :: split t.
Proof.
  intros [Hne Hw] Ht. induction w as [|c w IH]; [done|].
  inversion Hw as [|? ? Hc Hw']; subst. clear Hne.
  change ((c :: w) ++ t) with (c :: (w ++ t)).
  rewrite split_unfold, Hc.
  destruct w as [|c' w'].
  - simpl. destruct Ht as [->|(d & t' & -> & Hd)]; [done|].
    by rewrite Hd.
  - change ((c' :: w') ++ t) with (c' :: (w' ++ t)) in *.
    inversion Hw' as [|? ? Hc' _]; subst. rewrite Hc'.
    by rewrite IH.
Qed.

Lemma split_join ws :
  Forall is_word ws -> split (join (lit " ") ws) = ws.
Proof.
  induction ws as [|w ws IH]; intros Hws; [done|].
  inversion Hws as [|? ? Hw Hws']; subst.
  simpl. destruct ws as [|w' ws'].
  - rewrite <- (app_nil_r w) at 1. rewrite split_word_app; auto.
  - rewrite split_word_app; [|done|right; by eexists _, _].
    f_equal. change (lit " " ++ ?x) with (" "%char :: x).
    rewrite split_unfold. simpl is_space. cbv iota. by apply IH.
Qed.

Lemma join_chars sep ws c :
  c ∈ join sep ws -> c ∈ sep ∨ ∃ w, w ∈ ws ∧ c ∈ w.
Proof.
  induction ws as [|w ws IH]; simpl; intros Hc.
  { by apply elem_of_nil in Hc. }
  destruct ws as [|w' ws'].
  { right. exists w. split; [by left|done]. }
  rewrite !elem_of_app in Hc. destruct Hc as [Hc|[Hc|Hc]].
  - right. exists w. split; [by left|done].
  - by left.
  - destruct (IH Hc) as [?|(w0 & Hw0 & ?)]; [by left|].
    right. exists w0. split; [by right|done].
Qed.

End SplitJoin.

(** *** Substrings *)

Section Substrings.

Lemma startswith_spec s p : startswith s p = true <-> ∃ post, s = p ++ post.
Proof.
  revert s. induction p as [|a p IH]; intros s.
  { simpl. split; [by exists s|by destruct s]. }
  destruct s as [|b s]; simpl.
  { split; [done|]. by intros [post ?]. }
  rewrite andb_true_iff, Ascii.eqb_eq, IH. split.
  - intros [-> [post ->]]. by exists post.
  - intros [post [= -> ->]]. split; [done|]. by exists post.
Qed.

(** [contains needle hay] holds exactly when [needle] is a contiguous
    block of [hay]. *)
Lemma contains_spec needle hay :
  contains needle hay = true <-> ∃ pre post, hay = pre ++ needle ++ post.
Proof.
  assert (Hunfold : ∀ hay,
    contains needle hay =
    startswith hay needle ||
    match hay with [] => false | _ :: t => contains needle t end)
    by (by intros []).
  induction hay as [|c hay IH]; rewrite Hunfold.
  - rewrite orb_false_r, startswith_spec. split.
    + intros [post ->]. by exists [], post.
    + intros (pre & post & H). symmetry in H.
      apply app_eq_nil in H as [-> H]. by exists post.
  - rewrite orb_true_iff, startswith_spec, IH. split.
    + intros [[post ->]|(pre & post & ->)].
      * by exists [], post.
      * by exists (c :: pre), post.
    + intros ([|c' pre] & post & H).
      * left. by exists post.
      * right. injection H as -> ->. by exists pre, post.
Qed.

End Substrings.

(** *** Normalised text *)

Section Normalised.

Lemma translate_punct_clean s : Forall clean s -> translate_punct s = s.
Proof.
  induction 1 as [|c s [Hp _] _ IH]; [done|].
  unfold translate_punct in *. simpl. rewrite Hp. simpl. by f_equal.
Qed.

Lemma lower_clean s : Forall clean s -> lower s = s.
Proof.
  induction 1 as [|c s [_ Hl] _ IH]; [done|].
  unfold lower in *. simpl. by rewrite Hl, IH.
Qed.

Lemma lower_translate_clean s : Forall clean (lower (translate_punct s)).
Proof.
  induction s as [|c s IH]; [constructor|].
  unfold lower, translate_punct in *. simpl.
  destruct (is_punct c) eqn:Hp; simpl; [done|].
  constructor; [|done]. split; [by rewrite lower_char_punct|].
  apply lower_char_idem.
Qed.

Lemma normalize_text_clean s : Forall clean (normalize_text s).
Proof.
  apply Forall_forall. intros c Hc.
  apply join_chars in Hc as [Hc|(w & Hw & Hc)].
  - apply list_elem_of_singleton in Hc. by subst.
  - pose proof (lower_translate_clean s) as Hcl.
    rewrite Forall_forall in Hcl. apply Hcl. by eapply split_chars.
Qed.

Lemma normalize_text_words s :
  split (normalize_text s) = split (lower (translate_punct s)).
Proof. apply split_join, split_words. Qed.

End Normalised.

(** C9.  [normalize_text] is idempotent: normalising a normalised string
    leaves it unchanged, for every string. *)
Theorem normalize_text_idempotent (s : str) :
  normalize_text (normalize_text s) = normalize_text s.
Proof.
  unfold normalize_text at 1.
  rewrite translate_punct_clean by apply normalize_text_clean.
  rewrite lower_clean by apply normalize_text_clean.
  by rewrite normalize_text_words.
Qed.

(** *** The single-edit matcher *)

Section SingleEdit.

Lemma differ_at_false a b i : differ_at a b i = false <-> a !! i = b !! i.
Proof.
  unfold differ_at. rewrite negb_false_iff. apply bool_decide_eq_true.
Qed.

Lemma differ_at_true a b i : differ_at a b i = true <-> a !! i ≠ b !! i.
Proof.
  unfold differ_at. rewrite negb_true_iff. apply bool_decide_eq_false.
Qed.

Lemma elem_of_diffs a b i : i ∈ diffs a b <-> mismatch a b i.
Proof.
  unfold diffs, mismatch. rewrite list_elem_of_In, filter_In, in_seq.
  rewrite differ_at_true. intuition lia.
Qed.

Lemma NoDup_diffs a b : NoDup (diffs a b).
Proof. apply NoDup_ListNoDup, List.NoDup_filter, List.seq_NoDup. Qed.

Lemma diffs_singleton a b d :
  diffs a b = [d] <-> mismatch a b d ∧ ∀ j, mismatch a b j -> j = d.
Proof.
  split.
  - intros Hd. split.
    + apply elem_of_diffs. rewrite Hd. by left.
    + intros j Hj. apply elem_of_diffs in Hj. rewrite Hd in Hj.
      by apply list_elem_of_singleton in Hj.
  - intros [Hd Hsole].
    pose proof (NoDup_diffs a b) as Hnd.
    assert (Hall : ∀ j, j ∈ diffs a b -> j = d)
      by (intros j Hj; by apply Hsole, elem_of_diffs).
    apply elem_of_diffs in Hd.
    destruct (diffs a b) as [|x [|y l]].
    + by apply elem_of_nil in Hd.
    + f_equal. apply Hall. by left.
    + exfalso. assert (x = d) as -> by (apply Hall; by left).
      assert (y = d) as -> by (apply Hall; right; by left).
      inversion Hnd as [|? ? Hnin _]; subst. apply Hnin. by left.
Qed.

(** The loop leaves [i] at the first index where it stops: with fuel
    for every remaining index, the exit condition holds at the result. *)
Lemma common_run_spec a b fuel n i :
  (n <= length a)%nat -> (n <= length b)%nat -> (i <= n)%nat ->
  (n - i <= fuel)%nat -> take i a = take i b ->
  let r := common_run fuel n i a b in
  (i <= r <= n)%nat ∧ take r a = take r b ∧ (r = n ∨ a !! r ≠ b !! r).
Proof.
  revert i. induction fuel as [|fuel IH]; intros i Ha Hb Hi Hfuel Hpre; simpl.
  { split; [lia|]. split; [done|]. left. lia. }
  destruct (Nat.ltb_spec i n) as [Hlt|Hge]; simpl.
  2:{ split; [lia|]. split; [done|]. left. lia. }
  destruct (differ_at a b i) eqn:Hd; simpl.
  { split; [lia|]. split; [done|]. right. by apply differ_at_true. }
  apply differ_at_false in Hd.
  destruct (lookup_lt_is_Some_2 a i) as [x Hx]; [lia|].
  assert (Hy : b !! i = Some x) by congruence.
  destruct (IH (S i)) as [Hr Hrest]; try lia.
  { rewrite (take_S_r a i x Hx), (take_S_r b i x Hy). by rewrite Hpre. }
  split; [lia|exact Hrest].
Qed.

Lemma common_prefix_lookup a b j i :
  common_prefix a b j -> (i < j)%nat -> a !! i = b !! i.
Proof.
  intros (_ & _ & Heq) Hi.
  rewrite <- (lookup_take_lt a j i), <- (lookup_take_lt b j i) by done.
  by rewrite Heq.
Qed.

Lemma common_run_is_lcp a b n :
  n = Nat.min (length a) (length b) ->
  is_lcp a b (common_run n n 0 a b).
Proof.
  intros Hn.
  destruct (common_run_spec a b n n 0) as ([_ Hr] & Heq & Hstop);
    try lia; [done|].
  split; [repeat split; [lia..|done]|].
  intros j Hj. destruct Hstop as [->|Hne].
  { destruct Hj as (? & ? & _). lia. }
  destruct (Nat.le_gt_cases j (common_run n n 0 a b)) as [|Hgt]; [done|].
  exfalso. apply Hne. by eapply common_prefix_lookup.
Qed.

Lemma is_lcp_unique a b i j : is_lcp a b i -> is_lcp a b j -> i = j.
Proof.
  intros [Hi Hmaxi] [Hj Hmaxj].
  apply Nat.le_antisymm; [by apply Hmaxj|by apply Hmaxi].
Qed.

(** The four branches, with the tests on Python integers replaced by
    the facts they decide. *)
Lemma single_edit_match_info_cases a b :
  single_edit_match_info a b =
  if decide (a = b) then Some (Exact, 0)
  else if decide (length a = length b) then
    match diffs a b with
    | [d] => Some (Substitution, Z.of_nat d + 1)
    | _ => None
    end
  else if decide (length b = S (length a)) then
    let i := common_run (length a) (length a) 0 a b in
    if decide (drop i a = drop (i + 1) b)
    then Some (Insertion, Z.of_nat i + 1) else None
  else if decide (length a = S (length b)) then
    let i := common_run (length b) (length b) 0 a b in
    if decide (drop (i + 1) a = drop i b)
    then Some (Deletion, Z.of_nat i + 1) else None
  else None.
Proof.
  unfold single_edit_match_info, PyStr.eqb, slice_from, len.
  destruct (decide (a = b)) as [->|Hne].
  { by rewrite bool_decide_eq_true_2. }
  rewrite bool_decide_eq_false_2 by done.
  destruct (Z.gtb_spec (Z.abs (Z.of_nat (length a) - Z.of_nat (length b))) 1)
    as [Hfar|Hnear].
  { repeat (case_decide; [lia|]). done. }
  destruct (Z.eqb_spec (Z.of_nat (length a)) (Z.of_nat (length b))).
  { rewrite decide_True by lia. done. }
  rewrite decide_False by lia.
  destruct (Z.eqb_spec (Z.of_nat (length a) + 1) (Z.of_nat (length b))).
  { rewrite decide_True by lia. cbv zeta.
    case_bool_decide; case_decide; done. }
  rewrite decide_False by lia.
  destruct (Z.eqb_spec (Z.of_nat (length a)) (Z.of_nat (length b) + 1)).
  { rewrite decide_True by lia. cbv zeta.
    case_bool_decide; case_decide; done. }
  by rewrite decide_False by lia.
Qed.

End SingleEdit.

(** The specification's sample calls. *)
Lemma single_edit_match_info_samples :
  single_edit_match_info (lit "abc") (lit "abc") = Some (Exact, 0) ∧
  single_edit_match_info (lit "abc") (lit "xbc") = Some (Substitution, 1) ∧
  single_edit_match_info (lit "abc") (lit "abx") = Some (Substitution, 3) ∧
  single_edit_match_info (lit "abc") (lit "xyz") = None ∧
  single_edit_match_info (lit "a") (lit "abcde") = None ∧
  single_edit_match_info (lit "abc") (lit "abxc") = Some (Insertion, 3) ∧
  single_edit_match_info (lit "abc") (lit "bc") = Some (Deletion, 1).
Proof. repeat split; vm_compute; reflexivity. Qed.

(** C1.  The four-branch contract of [single_edit_match_info], for all
    strings [a] and [b]:
    - the result is [("exact", 0)] exactly when [a = b];
    - it is [None] whenever the lengths differ by more than one;
    - for equal lengths it is [("substitution", p)] exactly when [p] is
      the 1-based position of the only mismatch, and [None] when two
      positions differ;
    - when [b] is one longer, with [i] the length of the longest common
      prefix, it is [("insertion", i + 1)] exactly when [a[i:] = b[i+1:]],
      and [None] otherwise; symmetrically for [("deletion", i + 1)] when
      [a] is one longer and [a[i+1:] = b[i:]];
    - every result other than [None] is one of these. *)
Theorem single_edit_match_info_contract (a b : str) :
  (single_edit_match_info a b = Some (Exact, 0) <-> a = b) ∧
  (Z.abs (len a - len b) > 1 -> single_edit_match_info a b = None) ∧
  (length a = length b ->
     (∀ p, single_edit_match_info a b = Some (Substitution, p) <->
           ∃ i, p = Z.of_nat i + 1 ∧ mismatch a b i ∧
                ∀ j, mismatch a b j -> j = i) ∧
     (∀ i j, i ≠ j -> mismatch a b i -> mismatch a b j ->
             single_edit_match_info a b = None)) ∧
  (len a = len b - 1 -> ∃ i, is_lcp a b i ∧
     (single_edit_match_info a b = Some (Insertion, Z.of_nat i + 1) <->
      slice_from a i = slice_from b (i + 1)) ∧
     (slice_from a i ≠ slice_from b (i + 1) ->
      single_edit_match_info a b = None)) ∧
  (len a = len b + 1 -> ∃ i, is_lcp a b i ∧
     (single_edit_match_info a b = Some (Deletion, Z.of_nat i + 1) <->
      slice_from a (i + 1) = slice_from b i) ∧
     (slice_from a (i + 1) ≠ slice_from b i ->
      single_edit_match_info a b = None)) ∧
  (∀ kind p, single_edit_match_info a b = Some (kind, p) ->
     match kind with
     | Exact => p = 0 ∧ a = b
     | Substitution =>
         length a = length b ∧
         ∃ i, p = Z.of_nat i + 1 ∧ mismatch a b i ∧
              ∀ j, mismatch a b j -> j = i
     | Insertion =>
         len a = len b - 1 ∧
         ∃ i, p = Z.of_nat i + 1 ∧ is_lcp a b i ∧
              slice_from a i = slice_from b (i + 1)
     | Deletion =>
         len a = len b + 1 ∧
         ∃ i, p = Z.of_nat i + 1 ∧ is_lcp a b i ∧
              slice_from a (i + 1) = slice_from b i
     end).
Proof.
  rewrite single_edit_match_info_cases. unfold slice_from, len.
  split; [|split; [|split; [|split; [|split]]]].
  - (* exact *)
    destruct (decide (a = b)) as [|Hne]; [done|].
    split; [|done]. intros H. exfalso.
    repeat case_decide; try done.
    destruct (diffs a b) as [|? [|]]; done.
  - (* length gap *)
    intros Hgap. destruct (decide (a = b)) as [->|]; [lia|].
    repeat (case_decide; [lia|]). done.
  - (* substitution *)
    intros Hlen. split.
    + intros p. destruct (decide (a = b)) as [->|Hne].
      { split; [done|]. intros (i & _ & [_ Hi] & _). done. }
      rewrite decide_True by done. split.
      * destruct (diffs a b) as [|d [|]] eqn:Hd; try done.
        intros [= <-]. exists d. split; [done|]. by apply diffs_singleton.
      * intros (i & -> & Hi). apply diffs_singleton in Hi. by rewrite Hi.
    + intros i j Hij Hi Hj. destruct (decide (a = b)) as [->|Hne].
      { by destruct Hi. }
      rewrite decide_True by done.
      destruct (diffs a b) as [|d [|]] eqn:Hd; try done.
      apply diffs_singleton in Hd as [_ Hsole].
      rewrite (Hsole i Hi), (Hsole j Hj) in Hij. done.
  - (* insertion *)
    intros Hlen.
    exists (common_run (length a) (length a) 0 a b).
    split; [apply common_run_is_lcp; lia|].
    destruct (decide (a = b)) as [->|Hne]; [lia|].
    rewrite decide_False by lia. rewrite decide_True by lia. cbv zeta.
    case_decide; split; done.
  - (* deletion *)
    intros Hlen.
    exists (common_run (length b) (length b) 0 a b).
    split; [apply common_run_is_lcp; lia|].
    destruct (decide (a = b)) as [->|Hne]; [lia|].
    do 2 rewrite decide_False by lia. rewrite decide_True by lia. cbv zeta.
    case_decide; split; done.
  - (* nothing else *)
    intros kind p.
    destruct (decide (a = b)) as [->|Hne]; [by intros [= <- <-]|].
    destruct (decide (length a = length b)).
    { destruct (diffs a b) as [|d [|]] eqn:Hd; try done.
      intros [= <- <-]. split; [done|]. exists d. split; [done|].
      by apply diffs_singleton. }
    destruct (decide (length b = S (length a))).
    { cbv zeta. case_decide; [|done]. intros [= <- <-].
      split; [lia|]. eexists. split; [done|].
      split; [apply common_run_is_lcp; lia|done]. }
    destruct (decide (length a = S (length b))); [|done].
    cbv zeta. case_decide; [|done]. intros [= <- <-].
    split; [lia|]. eexists. split; [done|].
    split; [apply common_run_is_lcp; lia|done].
Qed.

(** *** Penalties *)

Section Penalties.

Lemma penalty_for_table kind pos :
  1 <= pos -> penalty_for kind pos = Ok (penalty_table kind pos).
Proof.
  intros Hpos.
  assert (Hcases : pos = 1 ∨ pos = 2 ∨ pos = 3 ∨ pos = 4 ∨ pos = 5 ∨ 6 <= pos)
    by lia.
  destruct Hcases as [->|[->|[->|[->|[->|Hbig]]]]];
    try (by destruct kind).
  unfold penalty_for, penalty_table.
  repeat match goal with
         | |- context [?x =? ?y] =>
             destruct (Z.eqb_spec x y); [lia|]
         end.
  destruct kind; try done; simpl length;
    (destruct (Z.ltb_spec (pos - 1) (Z.of_nat 5)); [lia|done]).
Qed.

Lemma penalty_table_bounds kind pos :
  kind ≠ Exact -> 1 <= penalty_table kind pos <= 10.
Proof.
  intros Hk. unfold penalty_table.
  destruct kind; try done;
    repeat match goal with
           | |- context [?x =? ?y] => destruct (x =? y)
           end; lia.
Qed.

Lemma single_edit_match_info_pos a b kind p :
  single_edit_match_info a b = Some (kind, p) -> kind ≠ Exact -> 1 <= p.
Proof.
  rewrite single_edit_match_info_cases. intros H Hk.
  repeat case_decide; cbv zeta in *; repeat case_decide;
    try destruct (diffs a b) as [|? [|]];
    simplify_eq; try done; lia.
Qed.

End Penalties.

(** *** Scanning the windows of a candidate *)

Section ScanSpec.

Context {SO : SetOrder}.

Lemma scan_starts_spec q s L starts :
  ∃ r, scan_starts single_edit_match_info q s L starts = Ok r ∧
    match r with
    | None => ∀ start, start ∈ starts -> no_edit q (window s start L)
    | Some sc =>
        ∃ pre start post kind pos,
          starts = pre ++ start :: post ∧
          edit_outcome q (window s start L) kind pos ∧
          sc = 2 * len q - penalty_table kind pos ∧
          ∀ start', start' ∈ pre -> no_edit q (window s start' L)
    end.
Proof.
  induction starts as [|start rest IH].
  { exists None. split; [done|]. intros ? H. by apply elem_of_nil in H. }
  simpl. fold (window s start L).
  destruct (single_edit_match_info q (window s start L))
    as [[kind pos]|] eqn:Hm.
  - destruct (decide (kind = Exact)) as [->|Hk].
    + destruct IH as (r & Hr & Hspec). exists r. split; [done|].
      assert (Hno : no_edit q (window s start L)).
      { intros k p [Hkp Hne]. congruence. }
      destruct r as [sc|].
      * destruct Hspec as (pre & st & post & k & p & -> & He & Hsc & Hpre).
        exists (start :: pre), st, post, k, p. split_and!; try done.
        intros s' [->|Hs']%elem_of_cons; [done|by apply Hpre].
      * intros s' [->|Hs']%elem_of_cons; [done|by apply Hspec].
    + exists (Some (2 * len q - penalty_table kind pos)).
      rewrite (penalty_for_table kind pos)
        by (by eapply single_edit_match_info_pos).
      split; [by destruct kind|].
      exists [], start, rest, kind, pos. split_and!; try done.
      intros ? H. by apply elem_of_nil in H.
  - destruct IH as (r & Hr & Hspec). exists r. split; [done|].
    assert (Hno : no_edit q (window s start L)).
    { intros k p [Hkp Hne]. congruence. }
    destruct r as [sc|].
    * destruct Hspec as (pre & st & post & k & p & -> & He & Hsc & Hpre).
      exists (start :: pre), st, post, k, p. split_and!; try done.
      intros s' [->|Hs']%elem_of_cons; [done|by apply Hpre].
    * intros s' [->|Hs']%elem_of_cons; [done|by apply Hspec].
Qed.

Lemma seq_split_before n pre x post i :
  seq 0 n = pre ++ x :: post -> (i < x)%nat -> i ∈ pre.
Proof.
  intros Hseq Hi.
  assert (Hx : seq 0 n !! length pre = Some x).
  { rewrite Hseq. by rewrite list_lookup_middle. }
  apply lookup_seq in Hx as [Hx _]. simpl in Hx. subst x.
  assert (Hlook : seq 0 n !! i = Some i).
  { apply lookup_seq. split; [done|].
    apply (f_equal length) in Hseq.
    rewrite length_seq, length_app in Hseq. simpl in Hseq. lia. }
  rewrite Hseq, lookup_app_l in Hlook by done.
  by eapply list_elem_of_lookup_2.
Qed.

Lemma scan_lengths_spec q s Ls :
  ∃ r, scan_lengths single_edit_match_info q s Ls = Ok r ∧
    match r with
    | None =>
        ∀ L start, L ∈ Ls -> 0 < L <= len s ->
                   (start + Z.to_nat L <= length s)%nat ->
                   no_edit q (window s start (Z.to_nat L))
    | Some sc =>
        ∃ pre L post start kind pos,
          Ls = pre ++ L :: post ∧ 0 < L <= len s ∧
          (start + Z.to_nat L <= length s)%nat ∧
          edit_outcome q (window s start (Z.to_nat L)) kind pos ∧
          sc = 2 * len q - penalty_table kind pos ∧
          (∀ start', (start' < start)%nat ->
                     no_edit q (window s start' (Z.to_nat L))) ∧
          (∀ L' start', L' ∈ pre -> 0 < L' <= len s ->
                        (start' + Z.to_nat L' <= length s)%nat ->
                        no_edit q (window s start' (Z.to_nat L')))
    end.
Proof.
  induction Ls as [|L rest IH].
  { exists None. split; [done|]. intros ? ? H. by apply elem_of_nil in H. }
  simpl.
  destruct ((L <=? 0) || (L >? len s)) eqn:Hskip.
  - assert (Hinv : ¬ 0 < L <= len s).
    { apply orb_true_iff in Hskip as [H|H]; lia. }
    destruct IH as (r & Hr & Hspec). exists r. split; [done|].
    destruct r as [sc|].
    + destruct Hspec as (pre & L0 & post & st & k & p & -> & HL & Hst & He
                         & Hsc & Hearlier & Hpre).
      exists (L :: pre), L0, post, st, k, p. split_and!; try done; try lia.
      intros L' s' [->|HL']%elem_of_cons; [done|by apply Hpre].
    + intros L' s' [->|HL']%elem_of_cons; [done|by apply Hspec].
  - assert (HL : 0 < L <= len s).
    { apply orb_false_iff in Hskip as [H1 H2]. lia. }
    unfold len in HL.
    assert (Hrange : ∀ start,
      start ∈ seq 0 (Z.to_nat (len s - L + 1)) <->
      (start + Z.to_nat L <= length s)%nat).
    { intros start. rewrite elem_of_seq. unfold len. lia. }
    destruct (scan_starts_spec q s (Z.to_nat L)
                (seq 0 (Z.to_nat (len s - L + 1)))) as (r0 & Hr0 & Hspec0).
    rewrite Hr0. simpl.
    destruct r0 as [sc|].
    + exists (Some sc). split; [done|].
      destruct Hspec0 as (pre & st & post & k & p & Hseq & He & Hsc & Hpre).
      exists [], L, rest, st, k, p. split_and!; try done; try lia.
      * apply Hrange. rewrite Hseq. apply elem_of_app. right. by left.
      * intros s' Hs'. apply Hpre. by eapply seq_split_before.
      * intros ? ? H. by apply elem_of_nil in H.
    + destruct IH as (r & Hr & Hspec). exists r. split; [done|].
      assert (Hno : ∀ start, (start + Z.to_nat L <= length s)%nat ->
                             no_edit q (window s start (Z.to_nat L))).
      { intros start Hstart. by apply Hspec0, Hrange. }
      destruct r as [sc|].
      * destruct Hspec as (pre & L0 & post & st & k & p & -> & HL0 & Hst & He
                           & Hsc & Hearlier & Hpre).
        exists (L :: pre), L0, post, st, k, p. split_and!; try done; try lia.
        intros L' s' [->|HL']%elem_of_cons; [auto|by apply Hpre].
      * intros L' s' [->|HL']%elem_of_cons; [auto|by apply Hspec].
Qed.

End ScanSpec.

(** *** What one candidate contributes *)

Section Contribution.

Context {SO : SetOrder}.


Lemma score_candidates_spec self q idxs acc res :
  score_candidates self q idxs acc = Ok res ->
  ∃ cs, Forall2 (contribution self q) idxs cs ∧ res = acc ++ omap id cs.
Proof.
  revert acc. induction idxs as [|idx rest IH]; intros acc; simpl.
  { intros [= <-]. exists []. split; [constructor|by rewrite app_nil_r]. }
  destruct (py_index (sentences self) idx) as [[[sentence src] offset]|]
    eqn:Hidx; [simpl|done].
  destruct (score_candidate q (normalize_text sentence)) as [r|] eqn:Hr;
    [simpl|done].
  assert (Hc : contribution self q idx
                 (mkAutoCompleteData sentence src offset <$> r))
    by (by exists sentence, src, offset, r).
  destruct r as [sc|]; intros Hres; apply IH in Hres as (cs & Hcs & ->).
  - exists (Some (mkAutoCompleteData sentence src offset sc) :: cs).
    split; [by constructor|]. simpl. by rewrite <- app_assoc.
  - exists (None :: cs). split; [by constructor|done].
Qed.


Lemma py_index_elem {A} (l : list A) (i : Z) (x : A) :
  py_index l i = Ok x -> x ∈ l.
Proof.
  unfold py_index.
  destruct ((0 <=? _) && _); [|done].
  destruct (l !! _) as [y|] eqn:Hy; [|done].
  intros [= <-]. by eapply list_elem_of_lookup_2.
Qed.


Lemma candidate_idxs_NoDup self w : NoDup (candidate_idxs self w).
Proof.
  unfold candidate_idxs.
  repeat case_match; apply set_iter_NoDup.
Qed.

End Contribution.

(** C2, as amended.  A candidate whose normalised text [s] does not
    contain the normalised query [q]: the scan returns (it does not raise);
    it yields a score exactly when some window of [s] whose length is one
    of [len q - 1], [len q], [len q + 1] (positive, at most [len s]) gives
    a single-edit outcome other than exact; the score is then
    [2 * len q - penalty] for the first such window in the order of the
    code's two loops: the lengths in the order in which the set of the
    three lengths is iterated (outer loop), and the windows of one length
    by increasing start offset (inner loop), so that a window of a length
    iterated earlier wins over a window at a smaller start offset; the
    penalty is the table's; and every candidate identifier is visited once
    and adds at most one result. *)
Theorem fuzzy_contribution `{SO : SetOrder} (q s : str) :
  contains q s = false ->
  (∃ r, score_candidate q s = Ok r ∧
        (is_Some r <-> some_window_edits q s) ∧
        (∀ sc, r = Some sc -> first_window_score q s sc)) ∧
  (∀ kind pos, 1 <= pos -> penalty_for kind pos = Ok (penalty_table kind pos)) ∧
  (∀ self w, NoDup (candidate_idxs self w)) ∧
  (∀ self idxs res,
     score_candidates self q idxs [] = Ok res ->
     ∃ cs, Forall2 (contribution self q) idxs cs ∧ res = omap id cs).
Proof.
  intros Hnc. split_and!.
  - unfold score_candidate, score_candidate_with. rewrite Hnc.
    destruct (scan_lengths_spec q s (set_iter [len q; len q + 1; len q - 1]))
      as (r & Hr & Hspec).
    exists r. split; [done|].
    assert (Hscanned : ∀ L,
      L ∈ set_iter [len q; len q + 1; len q - 1] -> 0 < L <= len s ->
      scanned_length q s L).
    { intros L HL Hpos. split; [|done].
      rewrite set_iter_elem in HL. rewrite list_elem_of_In in *. simpl in *. lia. }
    assert (Hsome : ∀ sc, r = Some sc -> first_window_score q s sc).
    { intros sc ->.
      destruct Hspec as (pre & L & post & st & k & p & HLs & HL & Hst & He
                         & Hsc & Hearlier & Hpre).
      exists pre, L, post, st, k, p. split_and!; try done.
      - apply Hscanned; [|done]. rewrite HLs, elem_of_app, elem_of_cons. tauto.
      - intros L' s' HL' [_ Hpos] Hs'. by apply Hpre. }
    split; [|done]. split.
    + intros [sc ->].
      destruct (Hsome sc eq_refl)
        as (_ & L & _ & st & k & p & _ & HL & Hst & He & _).
      by exists L, st, k, p.
    + intros (L & st & k & p & [HL Hpos] & Hst & He).
      destruct r as [sc|]; [done|]. exfalso.
      refine (Hspec L st _ Hpos Hst k p He).
      rewrite set_iter_elem. rewrite list_elem_of_In in *. simpl in *. lia.
  - apply penalty_for_table.
  - apply candidate_idxs_NoDup.
  - intros self idxs res Hres.
    by apply score_candidates_spec in Hres.
Qed.

Lemma fuzzy_contribution_witness :
  let q := lit "to pe" in
  let s := lit "to be or not to be that is the question" in
  contains q s = false ∧
  ∃ r, @score_candidate dedup_order q s = Ok r ∧
       (is_Some r <-> @some_window_edits q s) ∧
       (∀ sc, r = Some sc -> @first_window_score dedup_order q s sc).
Proof.
  split; [reflexivity|].
  exact (proj1 (@fuzzy_contribution dedup_order (lit "to pe")
    (lit "to be or not to be that is the question") eq_refl)).
Defined.

(** C2 as stated fails.  The specification takes the first window by
    increasing start offset; the code takes the lengths first.  For the
    query [abc] against the text [xbc], with the lengths iterated as 2, 3,
    4 (the order in which CPython iterates the set [{3, 4, 2}]), the code
    finds the deletion at position 1 in the window [bc] of length 2, at
    start offset 1, and scores [6 - 10 = -4]; the only window at start
    offset 0 that yields an edit is [xbc], a substitution at position 1,
    so the specification's reading gives [6 - 5 = 1] and nothing else. *)
Lemma start_offset_order_refuted :
  contains (lit "abc") (lit "xbc") = false ∧
  @set_iter ascending_order [len (lit "abc"); len (lit "abc") + 1;
                             len (lit "abc") - 1] = [2; 3; 4] ∧
  @score_candidate ascending_order (lit "abc") (lit "xbc") = Ok (Some (-4)) ∧
  first_by_start_offset (lit "abc") (lit "xbc") 1 ∧
  (∀ sc, first_by_start_offset (lit "abc") (lit "xbc") sc -> sc = 1).
Proof.
  assert (Hedit : edit_outcome (lit "abc") (window (lit "xbc") 0 3)
                    Substitution 1) by (split; [vm_compute; reflexivity|done]).
  assert (Hscanned : scanned_length (lit "abc") (lit "xbc") 3).
  { split; [|vm_compute; split; [reflexivity|discriminate]].
    apply list_elem_of_In. vm_compute. tauto. }
  split_and!; [vm_compute; reflexivity..| |].
  - exists 3, 0%nat, Substitution, 1.
    split_and!; [done|simpl; lia|done|reflexivity|].
    intros L' start' Hlt. lia.
  - intros sc (L & start & kind & pos & [HL Hpos] & Hst & He & -> & Hmin).
    destruct start as [|start].
    + apply list_elem_of_In in HL. vm_compute in HL, Hpos.
      destruct Hpos as [_ Hle].
      destruct HL as [<-|[<-|[<-|[]]]]; [|clear Hle|by elim Hle].
      * destruct He as [He _]. vm_compute in He. discriminate.
      * destruct He as [He _]. vm_compute in He. by injection He as <- <-.
    + exfalso.
      refine (Hmin 3 0%nat _ Hscanned _ Substitution 1 Hedit); simpl; lia.
Qed.

(** The example of the fallback test ([znique] against
    [unique sentence here]) shows the same: with the lengths iterated as
    6, 7, 5 the substitution in [unique] gives 12 - 5 = 7; with the
    lengths iterated as 5, 6, 7 (CPython's order for [{6, 7, 5}]) the
    deletion that leaves [nique] is found first and gives 12 - 10 = 2. *)
Lemma znique_length_order :
  @score_candidate dedup_order (lit "znique") (lit "unique sentence here")
    = Ok (Some 7) ∧
  @score_candidate ascending_order (lit "znique") (lit "unique sentence here")
    = Ok (Some 2).
Proof. split; vm_compute; reflexivity. Qed.

(** *** Candidate selection *)

Section Candidates.

Context {SO : SetOrder}.

Lemma elem_of_range n x : x ∈ range (Z.of_nat n) <-> 0 <= x < Z.of_nat n.
Proof.
  unfold range. rewrite Nat2Z.id, list_elem_of_In, in_map_iff.
  setoid_rewrite in_seq. split.
  - intros (i & <- & Hi). lia.
  - intros Hx. exists (Z.to_nat x). lia.
Qed.

Lemma normalize_text_first_word q :
  normalize_text q ≠ [] ->
  ∃ w rest, split (normalize_text q) = w :: rest ∧ is_word w.
Proof.
  intros Hne. rewrite normalize_text_words.
  pose proof (split_words (lower (translate_punct q))) as Hws.
  unfold normalize_text in Hne.
  destruct (split (lower (translate_punct q))) as [|w rest]; [done|].
  exists w, rest. split; [done|]. by inversion Hws.
Qed.

Lemma is_word_length w : is_word w -> (1 <= length w)%nat.
Proof. intros [Hne _]. destruct w; [done|simpl; lia]. Qed.

Lemma candidate_idxs_short self w :
  length w = 1%nat ∨ length w = 2%nat ->
  ∀ x, x ∈ candidate_idxs self w <->
       match index_get (word_index self) w with
       | [] => all_ids self x
       | entry => x ∈ entry
       end.
Proof.
  intros Hw x. unfold candidate_idxs.
  assert (((length w =? 1) || (length w =? 2))%nat = true) as ->.
  { apply orb_true_iff. rewrite !Nat.eqb_eq. done. }
  destruct (index_get (word_index self) w).
  - by rewrite set_iter_elem, elem_of_range.
  - by rewrite set_iter_elem.
Qed.

Lemma candidate_idxs_long self w :
  (3 <= length w)%nat ->
  ∀ x, x ∈ candidate_idxs self w <->
       match index_get (word_index self) (take 3 w) with
       | [] => all_ids self x
       | entry => x ∈ entry
       end.
Proof.
  intros Hw x. unfold candidate_idxs.
  assert (((length w =? 1) || (length w =? 2))%nat = false) as ->.
  { apply orb_false_iff. rewrite !Nat.eqb_neq. lia. }
  assert ((3 <=? length w)%nat = true) as -> by (apply Nat.leb_le; lia).
  destruct (index_get (word_index self) (take 3 w)).
  - by rewrite set_iter_elem, elem_of_range.
  - by rewrite set_iter_elem.
Qed.

Lemma candidate_idxs_one_key self self' w :
  (1 <= length w)%nat ->
  length (sentences self') = length (sentences self) ->
  word_index self' !! anchor_key w = word_index self !! anchor_key w ->
  candidate_idxs self' w = candidate_idxs self w.
Proof.
  intros Hw Hlen Hkey. unfold candidate_idxs, index_get, anchor_key in *.
  rewrite Hlen.
  destruct (Nat.leb_spec (length w) 2) as [Hs|Hl].
  - assert (((length w =? 1) || (length w =? 2))%nat = true) as ->.
    { apply orb_true_iff. rewrite !Nat.eqb_eq. lia. }
    by rewrite Hkey.
  - assert (((length w =? 1) || (length w =? 2))%nat = false) as ->.
    { apply orb_false_iff. rewrite !Nat.eqb_neq. lia. }
    by rewrite Hkey.
Qed.

End Candidates.

(** C6.  For a query whose normalised text is not empty, with [w] its
    first word: when [w] has one or two characters the candidates are the
    identifiers under the key [w] if that entry is not empty, and every
    sentence identifier otherwise; when [w] has three or more they are
    those under the first three characters of [w] if not empty, and every
    sentence identifier otherwise; and the candidates depend on the index
    through that one key only. *)
Theorem candidate_selection `{SO : SetOrder} (self : AutoCompleteSystem)
    (q : str) :
  normalize_text q ≠ [] ->
  ∃ w rest,
    split (normalize_text q) = w :: rest ∧
    py_index (split (normalize_text q)) 0 = Ok w ∧
    (1 <= length w)%nat ∧
    (length w = 1%nat ∨ length w = 2%nat ->
       ∀ x, x ∈ candidate_idxs self w <->
            match index_get (word_index self) w with
            | [] => all_ids self x
            | entry => x ∈ entry
            end) ∧
    ((3 <= length w)%nat ->
       ∀ x, x ∈ candidate_idxs self w <->
            match index_get (word_index self) (take 3 w) with
            | [] => all_ids self x
            | entry => x ∈ entry
            end) ∧
    (∀ self' : AutoCompleteSystem,
       length (sentences self') = length (sentences self) ->
       word_index self' !! anchor_key w = word_index self !! anchor_key w ->
       candidate_idxs self' w = candidate_idxs self w).
Proof.
  intros Hne.
  destruct (normalize_text_first_word q Hne) as (w & rest & Hsplit & Hw).
  exists w, rest. rewrite Hsplit.
  pose proof (is_word_length w Hw) as Hlen.
  split_and!; try done.
  - apply candidate_idxs_short.
  - apply candidate_idxs_long.
  - intros self'. by apply candidate_idxs_one_key.
Qed.

Lemma candidate_selection_witness :
  let self := build_from_folder init
                [(lit "corpus", [(lit "test.txt", [lit "unique sentence here"])])] in
  let q := lit "znique" in
  normalize_text q ≠ [] ∧
  ∃ w rest,
    split (normalize_text q) = w :: rest ∧
    py_index (split (normalize_text q)) 0 = Ok w ∧
    (1 <= length w)%nat ∧
    (length w = 1%nat ∨ length w = 2%nat ->
       ∀ x, x ∈ @candidate_idxs dedup_order self w <->
            match index_get (word_index self) w with
            | [] => all_ids self x
            | entry => x ∈ entry
            end) ∧
    ((3 <= length w)%nat ->
       ∀ x, x ∈ @candidate_idxs dedup_order self w <->
            match index_get (word_index self) (take 3 w) with
            | [] => all_ids self x
            | entry => x ∈ entry
            end) ∧
    (∀ self' : AutoCompleteSystem,
       length (sentences self') = length (sentences self) ->
       word_index self' !! anchor_key w = word_index self !! anchor_key w ->
       @candidate_idxs dedup_order self' w = @candidate_idxs dedup_order self w).
Proof.
  split; [discriminate|].
  apply (@candidate_selection dedup_order). discriminate.
Defined.

(** *** Totality of the query path *)

Section Totality.

Context {SO : SetOrder} {OUT : Stdout}.



Lemma split_whitespace s :
  Forall (fun c => is_space c = true) s -> split s = [].
Proof.
  induction 1 as [|c s Hc _ IH]; [done|].
  by rewrite split_unfold, Hc.
Qed.


Lemma set_iter_nil : set_iter [] = [].
Proof.
  destruct (set_iter []) as [|x l] eqn:H; [done|].
  assert (Hx : x ∈ set_iter []) by (rewrite H; by left).
  rewrite set_iter_elem in Hx. by apply elem_of_nil in Hx.
Qed.

Lemma get_best_k_completions_unfold self q :
  get_best_k_completions self q =
  match normalize_text q with
  | [] => Ok []
  | _ :: _ =>
      first_word ← py_index (split (normalize_text q)) 0;
      _ ← print_fallback_notice self first_word;
      results ← score_candidates self (normalize_text q)
                  (candidate_idxs self first_word) [];
      Ok (dedup_loop (py_sort results) ∅ [])
  end.
Proof. reflexivity. Qed.


(** The notice goes with the fallback to every sentence. *)
Lemma fallback_notice_None self w :
  fallback_notice self w = None ->
  ∃ k, candidate_idxs self w = set_iter (index_get (word_index self) k) ∧
       index_get (word_index self) k ≠ [].
Proof.
  unfold fallback_notice, candidate_idxs.
  destruct ((length w =? 1) || (length w =? 2))%nat.
  - destruct (index_get (word_index self) w) eqn:He; [done|].
    intros _. exists w. by rewrite He.
  - destruct (3 <=? length w)%nat; [|done].
    destruct (index_get (word_index self) (take 3 w)) eqn:He; [done|].
    intros _. exists (take 3 w). by rewrite He.
Qed.



End Totality.


(** *** The corpus build *)

Section Build.

Lemma index_get_setdefault_append (k : str) (v : Z)
    (m : gmap str (list Z)) (k' : str) :
  index_get (setdefault_append k v m) k' =
  if decide (k = k') then index_get m k ++ [v] else index_get m k'.
Proof.
  unfold setdefault_append, index_get at 1.
  destruct (decide (k = k')) as [->|Hne].
  - by rewrite lookup_insert_eq.
  - by rewrite lookup_insert_ne.
Qed.

Lemma dom_setdefault_append (k : str) (v : Z) (m : gmap str (list Z)) :
  dom (setdefault_append k v m) = {[k]} ∪ dom m.
Proof. unfold setdefault_append. apply dom_insert_L. Qed.

Lemma slice_length (w : str) j :
  (j + 3 <= length w)%nat -> length (slice w j (j + 3)) = 3%nat.
Proof.
  intros Hj. unfold slice. rewrite length_take, length_drop. lia.
Qed.

Lemma key_of_word_length w k :
  key_of_word w k -> (1 <= length k <= 3)%nat.
Proof.
  intros [[Hw ->]|(Hw & j & Hj & ->)]; [lia|].
  rewrite slice_length by done. lia.
Qed.

(** The windows filed by the inner loop of the build. *)
Lemma foldl_windows_dom (idx : Z) (w : str) (js : list nat)
    (m : gmap str (list Z)) (k : str) :
  k ∈ dom (foldl (fun m j => setdefault_append (slice w j (j + 3)) idx m)
             m js) <->
  k ∈ dom m ∨ ∃ j, j ∈ js ∧ k = slice w j (j + 3).
Proof.
  revert m. induction js as [|j js IH]; intros m; simpl.
  { split; [by left|]. intros [H|(j & Hj & _)]; [done|].
    by apply elem_of_nil in Hj. }
  rewrite IH, dom_setdefault_append, elem_of_union, elem_of_singleton.
  split.
  - intros [[->|Hk]|(j' & Hj' & ->)].
    + right. exists j. split; [by left|done].
    + by left.
    + right. exists j'. split; [by right|done].
  - intros [Hk|(j' & [->|Hj']%elem_of_cons & ->)].
    + left. by right.
    + left. by left.
    + right. by exists j'.
Qed.


Lemma index_word_dom (idx : Z) (m : gmap str (list Z)) (w k : str) :
  k ∈ dom (index_word idx m w) <-> k ∈ dom m ∨ key_of_word w k.
Proof.
  unfold index_word, key_of_word.
  destruct ((length w =? 1) || (length w =? 2))%nat eqn:Hshort.
  - apply orb_true_iff in Hshort. rewrite !Nat.eqb_eq in Hshort.
    rewrite dom_setdefault_append, elem_of_union, elem_of_singleton.
    split; [intros [->|?]; [right; by left|by left]|].
    intros [?|[[_ ->]|[Hl _]]]; [by right|by left|lia].
  - apply orb_false_iff in Hshort. rewrite !Nat.eqb_neq in Hshort.
    destruct (Nat.leb_spec 3 (length w)) as [Hl|Hl].
    + rewrite foldl_windows_dom. setoid_rewrite elem_of_seq.
      split.
      * intros [?|(j & Hj & ->)]; [by left|].
        right. right. split; [done|]. exists j. split; [lia|done].
      * intros [?|[[Hs _]|(_ & j & Hj & ->)]]; [by left|lia|].
        right. exists j. split; [lia|done].
    + split; [by left|]. intros [?|[[Hs _]|[Hl' _]]]; [done|lia|lia].
Qed.


Lemma index_words_dom (idx : Z) (ws : list str) (m : gmap str (list Z))
    (k : str) :
  k ∈ dom (foldl (index_word idx) m ws) <->
  k ∈ dom m ∨ ∃ w, w ∈ ws ∧ key_of_word w k.
Proof.
  revert m. induction ws as [|w ws IH]; intros m; simpl.
  { split; [by left|]. intros [H|(w & Hw & _)]; [done|].
    by apply elem_of_nil in Hw. }
  rewrite IH, index_word_dom. split.
  - intros [[Hk|Hk]|(w' & Hw' & Hk)].
    + by left.
    + right. exists w. split; [by left|done].
    + right. exists w'. split; [by right|done].
  - intros [Hk|(w' & [->|Hw']%elem_of_cons & Hk)].
    + left. by left.
    + left. by right.
    + right. by exists w'.
Qed.


Lemma keys_exact_init : keys_exact init.
Proof.
  intros k. simpl. rewrite dom_empty_L. split; [set_solver|].
  intros (w & (text & src & off & Hin & _) & _).
  by apply elem_of_nil in Hin.
Qed.

Lemma keys_exact_ingest_line path self il :
  keys_exact self -> keys_exact (ingest_line path self il).
Proof.
  intros Hinv. unfold ingest_line.
  destruct (strip il.2) as [|c t] eqn:Hstrip; [done|].
  intros k. simpl. rewrite index_words_dom, (Hinv k).
  unfold stored_word. simpl. split.
  - intros [(w & (text & src & off & Hin & Hw) & Hk)|(w & Hw & Hk)].
    + exists w. split; [|done]. exists text, src, off.
      split; [|done]. apply elem_of_app. by left.
    + exists w. split; [|done]. exists (c :: t), path, (Z.of_nat il.1).
      split; [|done]. apply elem_of_app. right. by left.
  - intros (w & (text & src & off & Hin & Hw) & Hk).
    apply elem_of_app in Hin as [Hin|Hin].
    + left. exists w. split; [|done]. by exists text, src, off.
    + apply list_elem_of_singleton in Hin. simplify_eq.
      right. by exists w.
Qed.

(** An invariant of the state that every line keeps is kept by the
    whole build. *)
Lemma build_from_folder_ind (P : AutoCompleteSystem -> Prop) :
  (∀ path self il, P self -> P (ingest_line path self il)) ->
  ∀ self walk, P self -> P (build_from_folder self walk).
Proof.
  intros Hstep self walk. unfold build_from_folder.
  revert self. induction walk as [|[d files] walk IH]; intros self HP;
    simpl; [done|].
  apply IH. clear IH. revert self HP.
  induction files as [|[fname lines] files IH]; intros self HP;
    simpl; [done|].
  apply IH. clear IH. unfold build_file. simpl.
  destruct (negb _); [done|].
  generalize (enumerate lines). intros ils. revert self HP.
  induction ils as [|il ils IH]; intros self HP; simpl; [done|].
  by apply IH, Hstep.
Qed.




End Build.



Lemma keys_exact_builds self walks :
  keys_exact self -> keys_exact (foldl build_from_folder self walks).
Proof.
  revert self. induction walks as [|walk walks IH]; intros self Hinv; [done|].
  simpl. apply IH. revert Hinv. apply build_from_folder_ind.
  intros. by apply keys_exact_ingest_line.
Qed.

(** C8.  After any sequence of corpus builds from the empty system, every
    key of the index has between one and three characters; the keys of
    one or two characters are exactly the words of that length of the
    stored sentences' normalised texts; the keys of three characters are
    exactly the three-character windows of their words of three or more
    characters; and a further build, or a further line, keeps this. *)
Theorem index_keys_invariant (walks : list Walk) :
  let self := foldl build_from_folder init walks in
  (∀ k, k ∈ dom (word_index self) -> (1 <= length k <= 3)%nat) ∧
  (∀ k, (length k = 1 ∨ length k = 2)%nat ->
        (k ∈ dom (word_index self) <-> stored_word self k)) ∧
  (∀ k, length k = 3%nat ->
        (k ∈ dom (word_index self) <->
         ∃ w j, stored_word self w ∧ (3 <= length w)%nat ∧
                (j + 3 <= length w)%nat ∧ k = slice w j (j + 3))) ∧
  keys_exact self ∧
  (∀ walk, keys_exact (build_from_folder self walk)) ∧
  (∀ path il, keys_exact (ingest_line path self il)).
Proof.
  intros self.
  assert (Hinv : keys_exact self) by apply keys_exact_builds, keys_exact_init.
  split_and!; try done.
  - intros k Hk. apply Hinv in Hk as (w & _ & Hkey).
    by eapply key_of_word_length.
  - intros k Hlen. rewrite (Hinv k). split.
    + intros (w & Hw & [[_ ->]|(_ & j & Hj & ->)]); [done|].
      rewrite slice_length in Hlen by done. lia.
    + intros Hk. exists k. split; [done|]. by left.
  - intros k Hlen. rewrite (Hinv k). split.
    + intros (w & Hw & [[Hs ->]|(Hl & j & Hj & ->)]); [lia|].
      by exists w, j.
    + intros (w & j & Hw & Hl & Hj & ->). exists w. split; [done|].
      right. split; [done|]. by exists j.
  - intros walk. revert Hinv. apply build_from_folder_ind.
    intros. by apply keys_exact_ingest_line.
  - intros path il. by apply keys_exact_ingest_line.
Qed.

(** *** The order used for ranking *)

Section Ranking.

Lemma ltb_cons x a y b :
  ltb (x :: a) (y :: b) = true <->
  (code x < code y)%nat ∨ (code x = code y ∧ ltb a b = true).
Proof.
  simpl. rewrite orb_true_iff, andb_true_iff, Nat.ltb_lt, Nat.eqb_eq. done.
Qed.

Lemma code_inj x y : code x = code y -> x = y.
Proof.
  unfold code. intros H.
  by rewrite <- (ascii_nat_embedding x), <- (ascii_nat_embedding y), H.
Qed.

Lemma ltb_irrefl a : ltb a a = false.
Proof.
  induction a as [|x a IH]; [done|].
  apply not_true_iff_false. rewrite ltb_cons. intros [?|[_ ?]]; [lia|].
  congruence.
Qed.

Lemma ltb_trans a b c :
  ltb a b = true -> ltb b c = true -> ltb a c = true.
Proof.
  revert b c. induction a as [|x a IH]; intros [|y b] [|z c]; try done.
  rewrite !ltb_cons. intros [?|[? ?]] [?|[? ?]]; [left; lia..|].
  right. split; [lia|]. by eapply IH.
Qed.

Lemma ltb_trichotomy a b :
  ltb a b = false -> ltb b a = false -> a = b.
Proof.
  revert b. induction a as [|x a IH]; intros [|y b]; try done.
  rewrite <- !not_true_iff_false, !ltb_cons. intros H1 H2.
  assert (code x = code y) by lia.
  f_equal; [by apply code_inj|].
  apply IH; apply not_true_iff_false; intros ?; [apply H1|apply H2];
    right; done.
Qed.

Lemma ltb_asym a b : ltb a b = true -> ltb b a = false.
Proof.
  intros H. apply not_true_iff_false. intros H'.
  pose proof (ltb_trans _ _ _ H H') as Haa. by rewrite ltb_irrefl in Haa.
Qed.

Lemma str_le_trans a b c : str_le a b -> str_le b c -> str_le a c.
Proof.
  unfold str_le. intros Hab Hbc. apply not_true_iff_false. intros Hca.
  destruct (ltb a b) eqn:Hlt.
  - pose proof (ltb_trans _ _ _ Hca Hlt). congruence.
  - assert (a = b) by (by apply ltb_trichotomy). congruence.
Qed.

Lemma key_ltb_false a b :
  key_ltb (sort_key b) (sort_key a) = false <-> ranks_before a b.
Proof.
  unfold key_ltb, sort_key, ranks_before, str_le. simpl.
  rewrite orb_false_iff, andb_false_iff, Z.ltb_ge, Z.eqb_neq. split.
  - intros [H1 [H2|H2]]; [left; lia|].
    destruct (decide (score a = score b)); [by right|left; lia].
  - intros [H|[H1 H2]]; (split; [lia|]); [left; lia|by right].
Qed.

Lemma key_ltb_true a b :
  key_ltb (sort_key a) (sort_key b) = true -> ranks_before a b.
Proof.
  unfold key_ltb, sort_key, ranks_before, str_le. simpl.
  rewrite orb_true_iff, andb_true_iff, Z.ltb_lt, Z.eqb_eq.
  intros [?|[? Hlt]]; [left; lia|]. right. split; [lia|].
  by apply ltb_asym.
Qed.

#[local] Instance ranks_before_trans : Transitive ranks_before.
Proof.
  intros a b c [Hab|[Hab Hsab]] [Hbc|[Hbc Hsbc]]; unfold ranks_before;
    [left; lia..|].
  right. split; [lia|]. by eapply str_le_trans.
Qed.

Lemma insert_sorted_perm x l : insert_sorted x l ≡ₚ x :: l.
Proof.
  induction l as [|y l IH]; simpl; [done|].
  destruct (key_ltb (sort_key y) (sort_key x)); [|done].
  rewrite IH. apply Permutation_swap.
Qed.

Lemma py_sort_perm l : py_sort l ≡ₚ l.
Proof.
  induction l as [|x l IH]; simpl; [done|].
  fold (py_sort l). by rewrite insert_sorted_perm, IH.
Qed.

Lemma insert_sorted_sorted x l :
  StronglySorted ranks_before l ->
  StronglySorted ranks_before (insert_sorted x l).
Proof.
  induction 1 as [|y l Hl IH Hy]; simpl.
  { repeat constructor. }
  destruct (key_ltb (sort_key y) (sort_key x)) eqn:Hlt.
  - constructor; [done|].
    rewrite insert_sorted_perm. constructor; [|done].
    by apply key_ltb_true.
  - apply key_ltb_false in Hlt.
    constructor; [by constructor|]. constructor; [done|].
    eapply Forall_impl; [exact Hy|]. intros z Hz. by transitivity y.
Qed.

Lemma py_sort_sorted l : StronglySorted ranks_before (py_sort l).
Proof.
  induction l as [|x l IH]; simpl; [constructor|].
  by apply insert_sorted_sorted.
Qed.

Lemma StronglySorted_sublist {A} (R : relation A) l1 l2 :
  l1 `sublist_of` l2 -> StronglySorted R l2 -> StronglySorted R l1.
Proof.
  induction 1 as [|x l1 l2 Hsub IH|x l1 l2 Hsub IH]; intros Hs; [done|..].
  - apply StronglySorted_inv in Hs as [Hs Hx].
    constructor; [by apply IH|].
    rewrite Forall_forall in *. intros y Hy. apply Hx.
    by eapply elem_of_sublist.
  - apply StronglySorted_inv in Hs as [Hs _]. by apply IH.
Qed.

Lemma StronglySorted_lookup {A} (R : relation A) l i j a b :
  StronglySorted R l -> (i < j)%nat ->
  l !! i = Some a -> l !! j = Some b -> R a b.
Proof.
  intros Hs Hij Hi Hj. rewrite <- (take_drop j l) in Hs.
  eapply StronglySorted_app_1_elem_of; [exact Hs|..].
  - apply list_elem_of_lookup. exists i. by rewrite lookup_take_lt.
  - apply list_elem_of_lookup. exists 0%nat.
    by rewrite lookup_drop, Nat.add_0_r.
Qed.

End Ranking.

(** *** Removing duplicates and truncating *)

Section Dedup.

Lemma dedup_loop_take l seen final :
  (length final < 5)%nat ->
  dedup_loop l seen final = take 5 (final ++ first_occurrences seen l).
Proof.
  revert seen final. induction l as [|r rest IH]; intros seen final Hlen.
  { simpl. rewrite app_nil_r. by rewrite take_ge by lia. }
  simpl. destruct (decide (completed_sentence r ∈ seen)) as [Hin|Hnin].
  - destruct (Z.leb_spec 5 (Z.of_nat (length final))); [lia|].
    by apply IH.
  - assert (Hmid : ∀ k : list AutoCompleteData,
              final ++ r :: k = (final ++ [r]) ++ k)
      by (intros k; by rewrite <- app_assoc).
    rewrite (Hmid (first_occurrences _ rest)).
    destruct (Z.leb_spec 5 (Z.of_nat (length (final ++ [r])))) as [Hfull|Hnot];
      rewrite length_app in *; simpl in *.
    + symmetry. apply take_app_length'. rewrite length_app. simpl. lia.
    + apply IH. rewrite length_app. simpl. lia.
Qed.

Lemma first_occurrences_sublist seen l :
  first_occurrences seen l `sublist_of` l.
Proof.
  revert seen. induction l as [|r rest IH]; intros seen; simpl; [done|].
  case_decide; [by apply sublist_cons|by apply sublist_skip].
Qed.

Lemma first_occurrences_fresh seen l r :
  r ∈ first_occurrences seen l -> completed_sentence r ∉ seen.
Proof.
  revert seen. induction l as [|x rest IH]; intros seen; simpl.
  { intros H. by apply elem_of_nil in H. }
  case_decide as Hx; [apply IH|].
  intros [->|Hr]%elem_of_cons; [done|].
  apply IH in Hr. set_solver.
Qed.

Lemma first_occurrences_NoDup seen l :
  NoDup (completed_sentence <$> first_occurrences seen l).
Proof.
  revert seen. induction l as [|x rest IH]; intros seen; simpl.
  { constructor. }
  case_decide as Hx; [apply IH|].
  rewrite fmap_cons. constructor; [|apply IH].
  intros (r & Heq & Hr)%list_elem_of_fmap.
  apply first_occurrences_fresh in Hr. set_solver.
Qed.

Lemma first_occurrences_cover seen l r :
  r ∈ l ->
  completed_sentence r ∈ seen ∨
  completed_sentence r ∈ completed_sentence <$> first_occurrences seen l.
Proof.
  revert seen. induction l as [|x rest IH]; intros seen Hr.
  { by apply elem_of_nil in Hr. }
  simpl. apply elem_of_cons in Hr as [->|Hr].
  - case_decide; [by left|]. right. rewrite fmap_cons. by left.
  - case_decide as Hx; [by apply IH|].
    destruct (IH ({[completed_sentence x]} ∪ seen) Hr) as [Hs|Hs].
    + apply elem_of_union in Hs as [Hs|Hs]; [|by left].
      apply elem_of_singleton in Hs. right. rewrite fmap_cons, Hs. by left.
    + right. rewrite fmap_cons. by right.
Qed.

Lemma first_occurrences_first seen l r :
  r ∈ first_occurrences seen l ->
  ∃ pre post, l = pre ++ r :: post ∧
              completed_sentence r ∉ completed_sentence <$> pre.
Proof.
  revert seen. induction l as [|x rest IH]; intros seen; simpl.
  { intros H. by apply elem_of_nil in H. }
  case_decide as Hx.
  - intros Hr. pose proof (first_occurrences_fresh _ _ _ Hr) as Hfresh.
    destruct (IH _ Hr) as (pre & post & -> & Hpre).
    exists (x :: pre), post. split; [done|].
    rewrite fmap_cons. intros [Heq|?]%elem_of_cons; [|done].
    by rewrite Heq in Hfresh.
  - intros [->|Hr]%elem_of_cons.
    + exists [], rest. split; [done|]. rewrite fmap_nil. apply not_elem_of_nil.
    + pose proof (first_occurrences_fresh _ _ _ Hr) as Hfresh.
      destruct (IH _ Hr) as (pre & post & -> & Hpre).
      exists (x :: pre), post. split; [done|].
      rewrite fmap_cons. intros [Heq|?]%elem_of_cons; [|done].
      set_solver.
Qed.

End Dedup.

Section QueryResults.

Context {SO : SetOrder} {OUT : Stdout}.

(** What a call that returns has computed. *)
Lemma get_best_k_completions_inv self q l :
  get_best_k_completions self q = Ok l ->
  (normalize_text q = [] ∧ l = []) ∨
  (normalize_text q ≠ [] ∧
   ∃ w results,
     py_index (split (normalize_text q)) 0 = Ok w ∧
     score_candidates self (normalize_text q) (candidate_idxs self w) []
       = Ok results ∧
     l = take 5 (first_occurrences ∅ (py_sort results))).
Proof.
  rewrite get_best_k_completions_unfold.
  destruct (normalize_text q) as [|c t] eqn:Hq.
  { intros [= <-]. by left. }
  intros H. right. split; [done|].
  destruct (py_index (split (c :: t)) 0) as [w|] eqn:Hw; [|done].
  change (Ok w ≫= ?f) with (f w) in H. cbv beta in H.
  destruct (print_fallback_notice self w) as [[]|]; [|done].
  change (score_candidates self (c :: t) (candidate_idxs self w) []
          ≫= (fun results => Ok (dedup_loop (py_sort results) ∅ [])) = Ok l)
    in H.
  destruct (score_candidates self (c :: t) (candidate_idxs self w) [])
    as [results|] eqn:Hres; [|done].
  change (Ok (dedup_loop (py_sort results) ∅ []) = Ok l) in H.
  injection H as <-.
  exists w, results. split_and!; try done.
  by rewrite dedup_loop_take by (simpl; lia).
Qed.

End QueryResults.

(** C4.  The list a query returns has at most five entries, is ordered by
    score, highest first, entries of equal score by their lower-cased
    sentence, ascending, and has no two entries with the same
    [completed_sentence]: it is the first five of the first occurrences of
    each sentence in the sorted list of all scored results. *)
Theorem get_best_k_completions_ranked `{SO : SetOrder} `{OUT : Stdout} (self : AutoCompleteSystem) (q : str)
    (l : list AutoCompleteData) :
  get_best_k_completions self q = Ok l ->
  (length l <= 5)%nat ∧
  StronglySorted ranks_before l ∧
  (∀ i j a b, (i < j)%nat -> l !! i = Some a -> l !! j = Some b ->
              score b <= score a) ∧
  NoDup (completed_sentence <$> l) ∧
  (normalize_text q ≠ [] ->
   ∃ w results kept,
     py_index (split (normalize_text q)) 0 = Ok w ∧
     score_candidates self (normalize_text q) (candidate_idxs self w) []
       = Ok results ∧
     py_sort results ≡ₚ results ∧
     StronglySorted ranks_before (py_sort results) ∧
     kept `sublist_of` py_sort results ∧
     NoDup (completed_sentence <$> kept) ∧
     (∀ r, r ∈ py_sort results ->
           completed_sentence r ∈ completed_sentence <$> kept) ∧
     (∀ r, r ∈ kept ->
           ∃ pre post, py_sort results = pre ++ r :: post ∧
                       completed_sentence r ∉ completed_sentence <$> pre) ∧
     l = take 5 kept).
Proof.
  intros Hl.
  apply get_best_k_completions_inv in Hl
    as [[Hq ->]|(Hq & w & results & Hw & Hres & ->)].
  { split_and!.
    - simpl. lia.
    - constructor.
    - intros i j a b _ Hi. by rewrite lookup_nil in Hi.
    - constructor.
    - done. }
  set (sorted := py_sort results).
  set (kept := first_occurrences ∅ sorted).
  assert (Hsub : take 5 kept `sublist_of` sorted).
  { etrans; [apply sublist_take|apply first_occurrences_sublist]. }
  assert (Hsorted : StronglySorted ranks_before (take 5 kept)).
  { eapply StronglySorted_sublist; [exact Hsub|apply py_sort_sorted]. }
  split_and!.
  - rewrite length_take. lia.
  - done.
  - intros i j a b Hij Hi Hj.
    assert (Hab : ranks_before a b)
      by (by eapply StronglySorted_lookup).
    destruct Hab as [?|[? _]]; lia.
  - apply (sublist_NoDup _ (completed_sentence <$> kept)).
    + apply first_occurrences_NoDup.
    + apply fmap_sublist, sublist_take.
  - intros _. exists w, results, kept. split_and!; try done.
    + apply py_sort_perm.
    + apply py_sort_sorted.
    + apply first_occurrences_sublist.
    + apply first_occurrences_NoDup.
    + intros r Hr.
      destruct (first_occurrences_cover ∅ sorted r Hr) as [H|H]; [|done].
      set_solver.
    + intros r Hr. by eapply first_occurrences_first.
Qed.

(** *** Where a returned entry comes from, and its score *)

Section Scores.

Context {SO : SetOrder} {OUT : Stdout}.

(** The two ways a candidate gets a score. *)
Lemma score_candidate_cases q s sc :
  score_candidate q s = Ok (Some sc) ->
  (contains q s = true ∧ sc = 2 * len q) ∨
  (contains q s = false ∧
   ∃ kind pos, kind ≠ Exact ∧ sc = 2 * len q - penalty_table kind pos).
Proof.
  unfold score_candidate, score_candidate_with.
  destruct (contains q s); [intros [= <-]; by left|].
  intros H. right. split; [done|].
  destruct (scan_lengths_spec q s (set_iter [len q; len q + 1; len q - 1]))
    as (r & Hr & Hspec).
  rewrite Hr in H. injection H as ->.
  destruct Hspec as (_ & _ & _ & _ & kind & pos & _ & _ & _ & [_ Hk] & -> & _).
  by exists kind, pos.
Qed.

Lemma result_origin self q l r :
  get_best_k_completions self q = Ok l -> r ∈ l ->
  normalize_text q ≠ [] ∧
  ∃ idx,
    py_index (sentences self) idx
      = Ok (completed_sentence r, source_text r, offset r) ∧
    score_candidate (normalize_text q) (normalize_text (completed_sentence r))
      = Ok (Some (score r)).
Proof.
  intros Hl Hr.
  apply get_best_k_completions_inv in Hl
    as [[_ ->]|(Hq & w & results & Hw & Hres & ->)].
  { by apply elem_of_nil in Hr. }
  split; [done|].
  assert (Hin : r ∈ results).
  { rewrite <- (py_sort_perm results).
    eapply elem_of_sublist; [exact Hr|].
    etrans; [apply sublist_take|apply first_occurrences_sublist]. }
  apply score_candidates_spec in Hres as (cs & Hcs & ->). simpl in Hin.
  apply list_elem_of_omap in Hin as (c & Hc & Heq). simpl in Heq. subst c.
  apply list_elem_of_lookup in Hc as [i Hi].
  destruct (Forall2_lookup_r _ _ _ _ _ Hcs Hi)
    as (idx & _ & sentence & src & off & sc & Hidx & Hsc & Hr').
  destruct sc as [sc|]; [|done]. simpl in Hr'. injection Hr' as ->.
  by exists idx.
Qed.

Lemma penalty_tables_positive :
  Forall (fun p => 0 < p) _SUB_PENALTIES ∧
  Forall (fun p => 0 < p) _INSDEL_PENALTIES.
Proof. split; repeat constructor. Qed.

Lemma penalty_for_positive kind pos p :
  kind ≠ Exact -> penalty_for kind pos = Ok p -> 0 < p.
Proof.
  intros Hk Hp. destruct penalty_tables_positive as [Hsub Hinsdel].
  rewrite Forall_forall in Hsub, Hinsdel.
  unfold penalty_for in Hp.
  destruct kind; [done|..];
    destruct (_ <? _); apply py_index_elem in Hp; auto.
Qed.

End Scores.

(** C10.  Every entry a query returns has a score of at most twice the
    length of the normalised query, and exactly that when, and only when,
    the normalised query occurs in the entry's normalised sentence; the
    entries of both penalty tables are positive, and so is every penalty
    subtracted for a single edit. *)
Theorem score_upper_bound `{SO : SetOrder} `{OUT : Stdout} (self : AutoCompleteSystem)
    (q : str) (l : list AutoCompleteData) :
  get_best_k_completions self q = Ok l ->
  (∀ r, r ∈ l ->
        score r <= 2 * len (normalize_text q) ∧
        (score r = 2 * len (normalize_text q) <->
         contains (normalize_text q) (normalize_text (completed_sentence r))
           = true)) ∧
  Forall (fun p => 0 < p) _SUB_PENALTIES ∧
  Forall (fun p => 0 < p) _INSDEL_PENALTIES ∧
  (∀ kind pos p, kind ≠ Exact -> penalty_for kind pos = Ok p -> 0 < p).
Proof.
  intros Hl. split_and!.
  - intros r Hr.
    destruct (result_origin self q l r Hl Hr) as (_ & idx & _ & Hsc).
    apply score_candidate_cases in Hsc
      as [[Hc ->]|(Hc & kind & pos & Hk & ->)].
    + split; [lia|]. by rewrite Hc.
    + pose proof (penalty_table_bounds kind pos Hk). rewrite Hc.
      split; [lia|]. split; [lia|done].
  - apply penalty_tables_positive.
  - apply penalty_tables_positive.
  - apply penalty_for_positive.
Qed.

(** C5, as amended.  Every entry a query returns has a score of at least
    twice the length of the normalised query minus 10 (the largest
    penalty); so scores are not negative as soon as the normalised query
    has five characters or more. *)
Theorem score_lower_bound `{SO : SetOrder} `{OUT : Stdout} (self : AutoCompleteSystem)
    (q : str) (l : list AutoCompleteData) :
  get_best_k_completions self q = Ok l ->
  ∀ r, r ∈ l ->
       2 * len (normalize_text q) - 10 <= score r ∧
       (5 <= len (normalize_text q) -> 0 <= score r).
Proof.
  intros Hl r Hr.
  destruct (result_origin self q l r Hl Hr) as (_ & idx & _ & Hsc).
  apply score_candidate_cases in Hsc as [[Hc ->]|(Hc & kind & pos & Hk & ->)].
  - unfold len. lia.
  - pose proof (penalty_table_bounds kind pos Hk). lia.
Qed.

(** *** Worked corpora *)

Lemma greetings_hello_w_result :
  @get_best_k_completions dedup_order latin1_stdout Examples.greetings (lit "hello w")
  = Ok Examples.greetings_hello_w.
Proof. vm_compute. reflexivity. Qed.

Lemma get_best_k_completions_ranked_witness :
  @get_best_k_completions dedup_order latin1_stdout Examples.greetings (lit "hello w")
    = Ok Examples.greetings_hello_w ∧
  (length Examples.greetings_hello_w <= 5)%nat ∧
  StronglySorted ranks_before Examples.greetings_hello_w ∧
  NoDup (completed_sentence <$> Examples.greetings_hello_w).
Proof.
  split; [exact greetings_hello_w_result|].
  pose proof (@get_best_k_completions_ranked dedup_order latin1_stdout _ _ _ greetings_hello_w_result)
    as (H1 & H2 & _ & H4 & _).
  exact (conj H1 (conj H2 H4)).
Defined.

Lemma score_upper_bound_witness :
  @get_best_k_completions dedup_order latin1_stdout Examples.greetings (lit "hello w")
    = Ok Examples.greetings_hello_w ∧
  ∀ r, r ∈ Examples.greetings_hello_w ->
       score r <= 2 * len (normalize_text (lit "hello w")) ∧
       (score r = 2 * len (normalize_text (lit "hello w")) <->
        contains (normalize_text (lit "hello w"))
                 (normalize_text (completed_sentence r)) = true).
Proof.
  split; [exact greetings_hello_w_result|].
  exact (proj1 (@score_upper_bound dedup_order latin1_stdout _ _ _
                  greetings_hello_w_result)).
Defined.

Lemma score_lower_bound_witness :
  @get_best_k_completions dedup_order latin1_stdout Examples.greetings (lit "hello w")
    = Ok Examples.greetings_hello_w ∧
  ∀ r, r ∈ Examples.greetings_hello_w ->
       2 * len (normalize_text (lit "hello w")) - 10 <= score r ∧
       (5 <= len (normalize_text (lit "hello w")) -> 0 <= score r).
Proof.
  split; [exact greetings_hello_w_result|].
  exact (@score_lower_bound dedup_order latin1_stdout _ _ _ greetings_hello_w_result).
Defined.

(** C5 as stated fails: for the corpus of the single line [b], the query
    [a] returns that line with score [2 * 1 - 5 = -3] (a substitution at
    position 1). *)
Lemma negative_score :
  ∃ l r,
    @get_best_k_completions dedup_order latin1_stdout Examples.letter_b (lit "a") = Ok l ∧
    r ∈ l ∧ score r < 0.
Proof.
  exists [mkAutoCompleteData (lit "b") (lit "corpus/test.txt") 0 (-3)],
         (mkAutoCompleteData (lit "b") (lit "corpus/test.txt") 0 (-3)).
  split; [vm_compute; reflexivity|]. split; [by left|reflexivity].
Qed.

(** *** Queries with a single candidate *)

Section SingleCandidate.

Context {SO : SetOrder} {OUT : Stdout}.

Lemma NoDup_all_eq (l : list Z) a :
  NoDup l -> (∀ x, x ∈ l <-> x = a) -> l = [a].
Proof.
  intros Hnd Hall. destruct l as [|x [|y l]].
  - exfalso. eapply not_elem_of_nil. by apply Hall.
  - f_equal. apply Hall. by left.
  - exfalso. assert (x = a) as -> by (apply Hall; by left).
    assert (y = a) as -> by (apply Hall; right; by left).
    apply NoDup_cons in Hnd as [Hnin _]. apply Hnin. by left.
Qed.

Lemma candidate_idxs_single self w a :
  (∀ x, x ∈ candidate_idxs self w <-> x = a) -> candidate_idxs self w = [a].
Proof. apply NoDup_all_eq, candidate_idxs_NoDup. Qed.

Lemma scan_lengths_cons m q s L rest :
  scan_lengths m q s (L :: rest) =
  match scan_lengths m q s [L] with
  | Ok (Some sc) => Ok (Some sc)
  | Ok None => scan_lengths m q s rest
  | Raise e => Raise e
  end.
Proof.
  simpl. destruct ((L <=? 0) || (L >? len s)); [done|].
  destruct (scan_starts m q s _ _) as [[sc|]|]; done.
Qed.

(** When only one length has a window that matches, the order in which
    the lengths are tried does not matter. *)
Lemma scan_lengths_only m q s Ls L0 sc :
  L0 ∈ Ls ->
  scan_lengths m q s [L0] = Ok (Some sc) ->
  (∀ L, L ∈ Ls -> L ≠ L0 -> scan_lengths m q s [L] = Ok None) ->
  scan_lengths m q s Ls = Ok (Some sc).
Proof.
  intros Hin Hhit Hother. induction Ls as [|L rest IH].
  { by apply elem_of_nil in Hin. }
  rewrite scan_lengths_cons. destruct (decide (L = L0)) as [->|Hne].
  { by rewrite Hhit. }
  rewrite (Hother L) by (done || by left).
  apply IH.
  - apply elem_of_cons in Hin as [->|Hin]; done.
  - intros L' HL'. apply Hother. by right.
Qed.

Lemma score_candidates_contained self q idx sentence src off acc :
  py_index (sentences self) idx = Ok (sentence, src, off) ->
  contains q (normalize_text sentence) = true ->
  score_candidates self q [idx] acc
  = Ok (acc ++ [mkAutoCompleteData sentence src off (2 * len q)]).
Proof.
  intros Hidx Hc. simpl. rewrite Hidx. simpl.
  unfold score_candidate, score_candidate_with. by rewrite Hc.
Qed.

Lemma get_best_k_completions_single self q w idx sentence src off sc :
  normalize_text q ≠ [] ->
  py_index (split (normalize_text q)) 0 = Ok w ->
  print_fallback_notice self w = Ok tt ->
  candidate_idxs self w = [idx] ->
  py_index (sentences self) idx = Ok (sentence, src, off) ->
  score_candidate (normalize_text q) (normalize_text sentence)
    = Ok (Some sc) ->
  get_best_k_completions self q
  = Ok [mkAutoCompleteData sentence src off sc].
Proof.
  intros Hq Hw Hp Hc Hidx Hsc. rewrite get_best_k_completions_unfold.
  destruct (normalize_text q) as [|c t] eqn:Hn; [done|].
  rewrite Hw. simpl. rewrite Hp. simpl. rewrite Hc. simpl.
  rewrite Hidx. simpl.
  rewrite Hsc. simpl. by rewrite decide_False by set_solver.
Qed.

Lemma hamlet_candidates : candidate_idxs Examples.hamlet (lit "to") = [0].
Proof.
  apply candidate_idxs_single. intros x.
  rewrite candidate_idxs_short by (by right).
  assert (index_get (word_index Examples.hamlet) (lit "to") = [0; 0]) as ->
    by (vm_compute; reflexivity).
  rewrite !elem_of_cons, elem_of_nil. tauto.
Qed.

Lemma hamlet_to_be :
  get_best_k_completions Examples.hamlet (lit "to be")
  = Ok [Examples.hamlet_entry 10].
Proof.
  apply (get_best_k_completions_single _ _ (lit "to") 0).
  - intros H. vm_compute in H. discriminate.
  - vm_compute. reflexivity.
  - vm_compute. reflexivity.
  - apply hamlet_candidates.
  - vm_compute. reflexivity.
  - unfold score_candidate, score_candidate_with.
    assert (contains (normalize_text (lit "to be"))
              (normalize_text Examples.hamlet_line) = true) as ->
      by (vm_compute; reflexivity).
    vm_compute. reflexivity.
Qed.

Lemma hamlet_to_pe :
  get_best_k_completions Examples.hamlet (lit "to pe")
  = Ok [Examples.hamlet_entry 8].
Proof.
  apply (get_best_k_completions_single _ _ (lit "to") 0).
  - intros H. vm_compute in H. discriminate.
  - vm_compute. reflexivity.
  - vm_compute. reflexivity.
  - apply hamlet_candidates.
  - vm_compute. reflexivity.
  - unfold score_candidate, score_candidate_with.
    assert (contains (normalize_text (lit "to pe"))
              (normalize_text Examples.hamlet_line) = false) as ->
      by (vm_compute; reflexivity).
    apply (scan_lengths_only _ _ _ _ 5).
    + rewrite set_iter_elem. apply list_elem_of_In. vm_compute. by left.
    + vm_compute. reflexivity.
    + intros L HL Hne. rewrite set_iter_elem in HL.
      apply list_elem_of_In in HL. vm_compute in HL.
      destruct HL as [<-|[<-|[<-|[]]]]; [done|vm_compute; reflexivity..].
Qed.

(** The order in which the three lengths are tried can change the score:
    for the query [abc] against the text [xbc], trying length 3 first
    finds the substitution at position 1 (score 1), trying length 2 first
    finds the deletion at position 1 in the window [bc] (score -4). *)
Lemma length_order_matters :
  @score_candidate dedup_order (lit "abc") (lit "xbc") = Ok (Some 1) ∧
  @score_candidate ascending_order (lit "abc") (lit "xbc") = Ok (Some (-4)).
Proof. split; vm_compute; reflexivity. Qed.

End SingleCandidate.

(** The negative score of the query [a] against the line [b] does not
    depend on the iteration order of sets (the fallback notice is printed
    on the way). *)
Lemma letter_b_any_order `{SO : SetOrder} :
  @get_best_k_completions SO latin1_stdout Examples.letter_b (lit "a")
  = Ok [mkAutoCompleteData (lit "b") (lit "corpus/test.txt") 0 (-3)].
Proof.
  apply (@get_best_k_completions_single SO latin1_stdout _ _ (lit "a") 0).
  - intros H. vm_compute in H. discriminate.
  - vm_compute. reflexivity.
  - vm_compute. reflexivity.
  - apply candidate_idxs_single. intros x.
    rewrite candidate_idxs_short by (by left).
    assert (index_get (word_index Examples.letter_b) (lit "a") = []) as ->
      by (vm_compute; reflexivity).
    unfold all_ids.
    assert (length (sentences Examples.letter_b) = 1%nat) as ->
      by (vm_compute; reflexivity).
    lia.
  - vm_compute. reflexivity.
  - unfold score_candidate, score_candidate_with.
    assert (contains (normalize_text (lit "a")) (normalize_text (lit "b"))
            = false) as -> by (vm_compute; reflexivity).
    apply (scan_lengths_only _ _ _ _ 1).
    + rewrite set_iter_elem. apply list_elem_of_In. vm_compute. by left.
    + vm_compute. reflexivity.
    + intros L HL Hne. rewrite set_iter_elem in HL.
      apply list_elem_of_In in HL. vm_compute in HL.
      destruct HL as [<-|[<-|[<-|[]]]]; [done|vm_compute; reflexivity..].
Qed.

(** C3.  A candidate whose normalised text contains the normalised query
    contributes the score [2 * len q], whatever the matcher would answer
    (the matcher is not called); and for the corpus of the single line
    [To be or not to be, that is the question] the query [to be] returns
    that line with score 10 and the query [to pe] returns it with score 8,
    in whatever order sets are iterated. *)
Theorem containment_score `{SO : SetOrder} `{OUT : Stdout} :
  (∀ q s, contains q s = true <-> ∃ pre post, s = pre ++ q ++ post) ∧
  (∀ matcher q s,
     contains q s = true ->
     score_candidate_with matcher q s = Ok (Some (2 * len q))) ∧
  (∀ self q idx sentence src off acc,
     py_index (sentences self) idx = Ok (sentence, src, off) ->
     contains q (normalize_text sentence) = true ->
     score_candidates self q [idx] acc
     = Ok (acc ++ [mkAutoCompleteData sentence src off (2 * len q)])) ∧
  get_best_k_completions Examples.hamlet (lit "to be")
    = Ok [Examples.hamlet_entry 10] ∧
  get_best_k_completions Examples.hamlet (lit "to pe")
    = Ok [Examples.hamlet_entry 8].
Proof.
  split_and!.
  - apply contains_spec.
  - intros matcher q s Hc. unfold score_candidate_with. by rewrite Hc.
  - apply @score_candidates_contained.
  - apply hamlet_to_be.
  - apply hamlet_to_pe.
Qed.


(** ** Further properties of the code *)

(** *** The shape of normalised text *)

Section NormalisedShape.

Lemma split_nil_iff t :
  split t = [] <-> Forall (fun c => is_space c = true) t.
Proof.
  split; [|apply split_whitespace].
  induction t as [|c t IH]; [constructor|].
  rewrite split_unfold. destruct (is_space c) eqn:Hc.
  - intros H. constructor; [done|by apply IH].
  - destruct t as [|d t']; [done|].
    destruct (is_space d); [done|]. by destruct (split (d :: t')).
Qed.

Lemma join_nil ws : Forall is_word ws -> join (lit " ") ws = [] -> ws = [].
Proof.
  intros Hws. destruct Hws as [|w ws [Hne _] _]; [done|].
  simpl. destruct ws; [done|]. by destruct w.
Qed.

Lemma no_adjacent_spaces_cons c t :
  match t with
  | d :: _ => is_space c = true -> is_space d = false
  | [] => True
  end ->
  no_adjacent_spaces t -> no_adjacent_spaces (c :: t).
Proof.
  intros Hhead Ht [|x pre] c' d post Heq Hc'.
  - simpl in Heq. injection Heq as <- ->. by apply Hhead.
  - simpl in Heq. injection Heq as <- ->. by eapply Ht.
Qed.

Lemma no_adjacent_spaces_nil : no_adjacent_spaces [].
Proof. intros pre c d post H. by destruct pre. Qed.

(** A word put in front of text that is empty or starts with a single
    space followed by a character that is no whitespace. *)
Lemma no_adjacent_spaces_word w t :
  Forall (fun c => is_space c = false) w ->
  match t with
  | c :: d :: _ => is_space d = false
  | [c] => False
  | [] => True
  end ->
  no_adjacent_spaces t -> no_adjacent_spaces (w ++ t).
Proof.
  intros Hw Hhead Ht. induction Hw as [|c w Hc _ IH]; [done|].
  simpl. apply no_adjacent_spaces_cons; [|done].
  destruct (w ++ t); [done|]. intros ?. congruence.
Qed.

Lemma join_shape ws :
  Forall is_word ws ->
  let t := join (lit " ") ws in
  match t with
  | c :: _ => is_space c = false
  | [] => True
  end ∧
  (∀ pre c, t = pre ++ [c] -> is_space c = false) ∧
  no_adjacent_spaces t.
Proof.
  induction 1 as [|w ws [Hne Hw] Hws IH].
  { split_and!; [done| |apply no_adjacent_spaces_nil].
    intros pre c H. by destruct pre. }
  destruct IH as (Hhead & Hlast & Hadj).
  assert (Hw1 : match w with c :: _ => is_space c = false | [] => True end).
  { destruct w as [|c w]; [done|]. by inversion Hw. }
  destruct ws as [|w' ws'].
  - change (join (lit " ") [w]) with w. cbv zeta. split_and!.
    + done.
    + intros pre c ->. rewrite Forall_app, Forall_singleton in Hw.
      by destruct Hw.
    + rewrite <- (app_nil_r w).
      apply no_adjacent_spaces_word; [done|done|].
      apply no_adjacent_spaces_nil.
  - change (join (lit " ") (w :: w' :: ws'))
      with (w ++ " "%char :: join (lit " ") (w' :: ws')).
    set (t := join (lit " ") (w' :: ws')) in *. cbv zeta in *.
    assert (Htne : t ≠ []).
    { intros Hnil. apply join_nil in Hnil; [done|by inversion Hws]. }
    split_and!.
    + destruct w as [|c w]; [done|]. done.
    + intros pre c Heq.
      destruct (exists_last Htne) as (pre' & c' & Ht).
      rewrite Ht in Heq.
      rewrite (app_comm_cons pre' [c'] " "%char), app_assoc in Heq.
      apply app_inj_tail in Heq as [_ <-]. by eapply Hlast.
    + apply no_adjacent_spaces_word; [done| |].
      * destruct t as [|d t']; done.
      * apply no_adjacent_spaces_cons; [|done].
        destruct t as [|d t']; [done|]. by intros _.
Qed.

End NormalisedShape.

(** X1.  [normalize_text s] is the empty string exactly when [s] has no
    character other than punctuation and whitespace; so exactly those
    queries are answered with the empty list without looking at the
    corpus. *)
Theorem normalize_text_empty_iff (s : str) :
  normalize_text s = [] <->
  Forall (fun c => is_punct c = true ∨ is_space c = true) s.
Proof.
  unfold normalize_text. split.
  - intros H. apply join_nil in H; [|apply split_words].
    apply split_nil_iff in H. induction s as [|c s IH]; [constructor|].
    unfold lower, translate_punct in *. simpl in H.
    destruct (is_punct c) eqn:Hp; simpl in H.
    + constructor; [by left|by apply IH].
    + inversion H as [|? ? Hc Hrest]; subst.
      rewrite lower_char_space in Hc. constructor; [by right|by apply IH].
  - intros H. rewrite (proj2 (split_nil_iff _)); [done|].
    induction H as [|c s Hc _ IH]; [constructor|].
    unfold lower, translate_punct in *. simpl.
    destruct (is_punct c) eqn:Hp; simpl; [done|].
    constructor; [|done]. rewrite lower_char_space.
    by destruct Hc.
Qed.

(** X2.  Normalised text is in canonical form: it holds no punctuation and
    no character that [lower] would change, its only whitespace is the
    space character, it neither starts nor ends with a space, and no two
    spaces are adjacent. *)
Theorem normalize_text_shape (s : str) :
  Forall (fun c => is_punct c = false ∧ lower_char c = c)
         (normalize_text s) ∧
  single_spaced (normalize_text s).
Proof.
  split; [apply normalize_text_clean|].
  pose proof (join_shape _ (split_words (lower (translate_punct s))))
    as (Hhead & Hlast & Hadj).
  fold (normalize_text s) in Hhead, Hlast, Hadj.
  split_and!; try done.
  - intros c Hc Hsp. apply join_chars in Hc as [Hc|(w & Hw & Hc)].
    + by apply list_elem_of_singleton in Hc.
    + pose proof (split_words (lower (translate_punct s))) as Hws.
      rewrite Forall_forall in Hws. destruct (Hws w Hw) as [_ Hnsp].
      rewrite Forall_forall in Hnsp. rewrite (Hnsp c Hc) in Hsp. done.
  - intros c rest Heq. by rewrite Heq in Hhead.
Qed.


(** *** The matcher and single edits *)

Section OneEdit.

Lemma substitution_iff a b p :
  single_edit_match_info a b = Some (Substitution, p) <->
  length a = length b ∧
  ∃ d, p = Z.of_nat d + 1 ∧ mismatch a b d ∧ ∀ j, mismatch a b j -> j = d.
Proof.
  rewrite single_edit_match_info_cases. split.
  - repeat case_decide; cbv zeta; repeat case_decide; try done.
    destruct (diffs a b) as [|d [|]] eqn:Hd; try done.
    intros [= <-]. split; [done|]. exists d. split; [done|].
    by apply diffs_singleton.
  - intros (Hlen & d & -> & Hd). pose proof Hd as [[Hlt Hne] _].
    apply diffs_singleton in Hd.
    rewrite decide_False by (intros ->; done).
    by rewrite decide_True, Hd by done.
Qed.

Lemma insertion_iff a b p :
  single_edit_match_info a b = Some (Insertion, p) <->
  length b = S (length a) ∧
  ∃ i, p = Z.of_nat i + 1 ∧ is_lcp a b i ∧ drop i a = drop (S i) b.
Proof.
  rewrite single_edit_match_info_cases. split.
  - repeat case_decide; cbv zeta; repeat case_decide; try done;
      try (by destruct (diffs a b) as [|? [|]]).
    intros [= <-]. split; [done|]. eexists. split; [done|].
    split; [apply common_run_is_lcp; lia|]. by rewrite <- Nat.add_1_r.
  - intros (Hlen & i & -> & Hlcp & Hdrop).
    assert (i = common_run (length a) (length a) 0 a b) as Hi.
    { eapply is_lcp_unique; [done|]. apply common_run_is_lcp. lia. }
    rewrite decide_False by (intros ->; lia).
    rewrite decide_False by lia. rewrite decide_True by done. cbv zeta.
    rewrite <- Hi, Nat.add_1_r. by rewrite decide_True.
Qed.

Lemma deletion_iff a b p :
  single_edit_match_info a b = Some (Deletion, p) <->
  length a = S (length b) ∧
  ∃ i, p = Z.of_nat i + 1 ∧ is_lcp a b i ∧ drop (S i) a = drop i b.
Proof.
  rewrite single_edit_match_info_cases. split.
  - repeat case_decide; cbv zeta; repeat case_decide; try done;
      try (by destruct (diffs a b) as [|? [|]]).
    intros [= <-]. split; [done|]. eexists. split; [done|].
    split; [apply common_run_is_lcp; lia|]. by rewrite <- Nat.add_1_r.
  - intros (Hlen & i & -> & Hlcp & Hdrop).
    assert (i = common_run (length b) (length b) 0 a b) as Hi.
    { eapply is_lcp_unique; [done|]. apply common_run_is_lcp. lia. }
    rewrite decide_False by (intros ->; lia).
    do 2 rewrite decide_False by lia. rewrite decide_True by done. cbv zeta.
    rewrite <- Hi, Nat.add_1_r. by rewrite decide_True.
Qed.

Lemma is_lcp_sym a b i : is_lcp a b i -> is_lcp b a i.
Proof.
  intros [(Ha & Hb & Heq) Hmax]. split; [done|].
  intros j (Hjb & Hja & Hj). by apply Hmax.
Qed.

Lemma mismatch_sym a b d :
  length a = length b -> mismatch a b d -> mismatch b a d.
Proof. intros Hlen [Hlt Hne]. split; [lia|done]. Qed.

Lemma is_lcp_exists a b : ∃ i, is_lcp a b i.
Proof.
  exists (common_run (Nat.min (length a) (length b))
            (Nat.min (length a) (length b)) 0 a b).
  by apply common_run_is_lcp.
Qed.

(** An insertion can be moved to the right as long as the strings agree
    there: it can be made at the end of the longest common prefix. *)
Lemma insertion_at_lcp a b j i x :
  (j <= length a)%nat -> b = take j a ++ x :: drop j a -> is_lcp a b i ->
  (j <= i)%nat ∧ b = take i a ++ x :: drop i a.
Proof.
  intros Hj Hb [(Hia & Hib & Hpre) Hmax].
  assert (Hji : (j <= i)%nat).
  { apply Hmax. split_and!; [done|subst b; rewrite length_app, length_take;
      simpl; rewrite length_drop; lia|].
    subst b. rewrite take_app_le by (rewrite length_take; lia).
    rewrite take_take. f_equal. lia. }
  split; [done|].
  assert (Hshift : ∀ n k, (k + n = i)%nat ->
            b = take k a ++ x :: drop k a -> b = take i a ++ x :: drop i a).
  { induction n as [|n IH]; intros k Hk Hbk.
    { by replace i with k by lia. }
    apply (IH (S k)); [lia|].
    assert (Hak : a !! k = Some x).
    { rewrite (common_prefix_lookup a b i k); [|by split_and!|lia].
      rewrite Hbk at 1. rewrite list_lookup_middle; [done|].
      rewrite length_take. lia. }
    rewrite (take_S_r a k x Hak), <- app_assoc. simpl.
    by rewrite <- (drop_S a x k Hak). }
  apply (Hshift (i - j)%nat j); [lia|done].
Qed.

Lemma one_insertion_found a b j :
  one_insertion a b j ->
  ∃ i, (j <= i)%nat ∧
       single_edit_match_info a b = Some (Insertion, Z.of_nat i + 1).
Proof.
  intros (Hj & x & Hb).
  destruct (is_lcp_exists a b) as [i Hi].
  destruct (insertion_at_lcp a b j i x Hj Hb Hi) as [Hji Hbi].
  exists i. split; [done|]. apply insertion_iff.
  assert (Hia : (i <= length a)%nat) by (by destruct Hi as [(? & _) _]).
  split.
  { rewrite Hbi, length_app, length_take. simpl. rewrite length_drop. lia. }
  exists i. split_and!; [done..|].
  rewrite Hbi at 1. change (x :: drop i a) with ([x] ++ drop i a).
  rewrite app_assoc. rewrite drop_app_length'; [done|].
  rewrite length_app, length_take. simpl. lia.
Qed.

Lemma insertion_sound a b p :
  single_edit_match_info a b = Some (Insertion, p) ->
  ∃ i, p = Z.of_nat i + 1 ∧ one_insertion a b i ∧
       ∀ j, one_insertion a b j -> (j <= i)%nat.
Proof.
  intros (Hlen & i & -> & Hlcp & Hdrop)%insertion_iff.
  exists i. split; [done|].
  pose proof Hlcp as [(Hia & Hib & Hpre) Hmax].
  destruct (lookup_lt_is_Some_2 b i) as [x Hx]; [lia|].
  assert (Hb : b = take i a ++ x :: drop i a).
  { rewrite <- (take_drop i b) at 1. rewrite <- Hpre.
    by rewrite (drop_S b x i Hx), Hdrop. }
  split; [split; [done|by exists x]|].
  intros j (Hj & y & Hbj).
  by destruct (insertion_at_lcp a b j i y Hj Hbj Hlcp).
Qed.

Lemma insertion_deletion_sym a b p :
  single_edit_match_info a b = Some (Insertion, p) <->
  single_edit_match_info b a = Some (Deletion, p).
Proof.
  rewrite insertion_iff, deletion_iff. split.
  - intros (Hlen & i & -> & Hlcp & Hdrop). split; [done|].
    exists i. split_and!; [done|by apply is_lcp_sym|done].
  - intros (Hlen & i & -> & Hlcp & Hdrop). split; [done|].
    exists i. split_and!; [done|by apply is_lcp_sym|done].
Qed.

Lemma substitution_sym a b p :
  single_edit_match_info a b = Some (Substitution, p) ->
  single_edit_match_info b a = Some (Substitution, p).
Proof.
  rewrite !substitution_iff. intros (Hlen & d & -> & Hd & Hsole).
  split; [done|]. exists d. split_and!; [done|by apply mismatch_sym|].
  intros j Hj. by apply Hsole, mismatch_sym.
Qed.

Lemma substitution_sound a b p :
  single_edit_match_info a b = Some (Substitution, p) ->
  ∃ i, p = Z.of_nat i + 1 ∧ one_substitution a b i.
Proof.
  intros (Hlen & d & -> & [Hlt Hne] & Hsole)%substitution_iff.
  exists d. split; [done|].
  destruct (lookup_lt_is_Some_2 a d) as [x Hx]; [done|].
  destruct (lookup_lt_is_Some_2 b d) as [y Hy]; [lia|].
  exists x, y. split_and!; [done|congruence|].
  apply list_eq. intros j. destruct (decide (j = d)) as [->|Hjd].
  - by rewrite list_lookup_insert_eq.
  - rewrite list_lookup_insert_ne by done.
    destruct (decide (j < length a)%nat) as [Hj|Hj].
    + destruct (decide (a !! j = b !! j)) as [|Hm]; [done|].
      exfalso. apply Hjd, Hsole. by split.
    + rewrite !lookup_ge_None_2 by lia. done.
Qed.

Lemma one_substitution_found a b i :
  one_substitution a b i ->
  single_edit_match_info a b = Some (Substitution, Z.of_nat i + 1).
Proof.
  intros (x & y & Hx & Hxy & ->). apply substitution_iff.
  assert (Hi : (i < length a)%nat) by (by eapply lookup_lt_Some).
  split; [by rewrite length_insert|].
  exists i. split_and!; [done|split; [done|]|].
  - rewrite list_lookup_insert_eq by done. congruence.
  - intros j [Hj Hne]. destruct (decide (j = i)) as [|Hji]; [done|].
    by rewrite list_lookup_insert_ne in Hne.
Qed.

End OneEdit.

(** X3.  The matcher is exact for one edit: it answers with a
    substitution, an insertion or a deletion exactly when the candidate is
    the prefix with one character replaced by a different one, one
    character put in, or one character taken out; the position reported is
    the 1-based place of that edit, and for an insertion or deletion the
    last place where the edit can be made. *)
Theorem single_edit_match_info_one_edit (a b : str) :
  ((∃ p, single_edit_match_info a b = Some (Substitution, p)) <->
   ∃ i, one_substitution a b i) ∧
  ((∃ p, single_edit_match_info a b = Some (Insertion, p)) <->
   ∃ i, one_insertion a b i) ∧
  ((∃ p, single_edit_match_info a b = Some (Deletion, p)) <->
   ∃ i, one_insertion b a i) ∧
  (∀ p, single_edit_match_info a b = Some (Substitution, p) ->
        one_substitution a b (Z.to_nat (p - 1))) ∧
  (∀ p, single_edit_match_info a b = Some (Insertion, p) ->
        one_insertion a b (Z.to_nat (p - 1)) ∧
        ∀ j, one_insertion a b j -> Z.of_nat j + 1 <= p) ∧
  (∀ p, single_edit_match_info a b = Some (Deletion, p) ->
        one_insertion b a (Z.to_nat (p - 1)) ∧
        ∀ j, one_insertion b a j -> Z.of_nat j + 1 <= p) ∧
  (single_edit_match_info a b = None <->
   a ≠ b ∧ (∀ i, ¬ one_substitution a b i) ∧
   (∀ i, ¬ one_insertion a b i) ∧ (∀ i, ¬ one_insertion b a i)).
Proof.
  assert (Hsub : ∀ p, single_edit_match_info a b = Some (Substitution, p) ->
                      one_substitution a b (Z.to_nat (p - 1))).
  { intros p (i & -> & Hi)%substitution_sound.
    by replace (Z.to_nat (Z.of_nat i + 1 - 1)) with i by lia. }
  assert (Hins : ∀ a b p,
    single_edit_match_info a b = Some (Insertion, p) ->
    one_insertion a b (Z.to_nat (p - 1)) ∧
    ∀ j, one_insertion a b j -> Z.of_nat j + 1 <= p).
  { intros a' b' p (i & -> & Hi & Hmax)%insertion_sound.
    replace (Z.to_nat (Z.of_nat i + 1 - 1)) with i by lia.
    split; [done|]. intros j Hj. specialize (Hmax j Hj). lia. }
  split_and!.
  - split; [intros [p Hp]; eauto|].
    intros [i Hi]. eexists. by apply one_substitution_found.
  - split; [intros [p Hp]; exists (Z.to_nat (p - 1)); by apply Hins|].
    intros [i (i' & _ & Hi)%one_insertion_found]. eauto.
  - split.
    + intros [p Hp%insertion_deletion_sym].
      exists (Z.to_nat (p - 1)). by apply Hins.
    + intros [i (i' & _ & Hi%insertion_deletion_sym)%one_insertion_found].
      eauto.
  - done.
  - intros p. apply Hins.
  - intros p Hp%insertion_deletion_sym. by apply Hins.
  - split.
    + intros Hnone. split_and!.
      * intros ->. rewrite single_edit_match_info_cases in Hnone.
        by rewrite decide_True in Hnone.
      * intros i Hi%one_substitution_found. congruence.
      * intros i (i' & _ & Hi)%one_insertion_found. congruence.
      * intros i (i' & _ & Hi%insertion_deletion_sym)%one_insertion_found.
        congruence.
    + intros (Hne & Hns & Hni & Hnd).
      destruct (single_edit_match_info a b) as [[[] p]|] eqn:Hm; [..|done];
        exfalso.
      * rewrite single_edit_match_info_cases in Hm.
        repeat case_decide; cbv zeta in Hm; repeat case_decide;
          try destruct (diffs a b) as [|? [|]]; done.
      * eapply Hns. eauto.
      * eapply Hni. by apply Hins.
      * eapply Hnd. apply insertion_deletion_sym in Hm. by apply Hins.
Qed.

(** X4.  Swapping the two arguments turns an insertion into a deletion at
    the same position and back, and leaves exact matches, substitutions
    (with their position) and the absence of a match as they are. *)
Theorem single_edit_match_info_swap (a b : str) :
  (∀ p, single_edit_match_info a b = Some (Insertion, p) <->
        single_edit_match_info b a = Some (Deletion, p)) ∧
  (∀ p, single_edit_match_info a b = Some (Substitution, p) <->
        single_edit_match_info b a = Some (Substitution, p)) ∧
  (∀ p, single_edit_match_info a b = Some (Exact, p) <->
        single_edit_match_info b a = Some (Exact, p)) ∧
  (single_edit_match_info a b = None <-> single_edit_match_info b a = None).
Proof.
  assert (Hexact : ∀ a b p, single_edit_match_info a b = Some (Exact, p) ->
                            single_edit_match_info b a = Some (Exact, p)).
  { intros a' b' p. rewrite !single_edit_match_info_cases.
    destruct (decide (a' = b')) as [->|Hne].
    - by rewrite decide_True.
    - repeat case_decide; cbv zeta; repeat case_decide;
        try destruct (diffs a' b') as [|? [|]]; done. }
  assert (Hnone : ∀ a b, single_edit_match_info a b = None ->
                         single_edit_match_info b a = None).
  { intros a' b' Hn.
    destruct (single_edit_match_info b' a') as [[[] p]|] eqn:Hm; [..|done].
    - apply Hexact in Hm. congruence.
    - apply substitution_sym in Hm. congruence.
    - apply insertion_deletion_sym in Hm. congruence.
    - apply insertion_deletion_sym in Hm. congruence. }
  split_and!.
  - intros p. apply insertion_deletion_sym.
  - intros p. split; apply substitution_sym.
  - intros p. split; apply Hexact.
  - split; apply Hnone.
Qed.

(** *** Penalties at the edges *)

Section PenaltyEdges.

Lemma penalty_for_small kind pos :
  kind ≠ Exact -> pos < -4 -> penalty_for kind pos = Raise IndexError.
Proof.
  intros Hk Hpos. unfold penalty_for, py_index. simpl length.
  destruct kind; try done;
    (destruct (Z.ltb_spec (pos - 1) (Z.of_nat 5)); [|lia]);
    (destruct (Z.ltb_spec (pos - 1) 0); [|lia]);
    (destruct (Z.leb_spec 0 (pos - 1 + Z.of_nat 5)); [lia|done]).
Qed.

Lemma penalty_for_wrap kind pos :
  -4 <= pos <= 0 -> penalty_for kind pos = penalty_for kind (pos + 5).
Proof.
  intros Hpos.
  assert (Hcases : pos = -4 ∨ pos = -3 ∨ pos = -2 ∨ pos = -1 ∨ pos = 0) by lia.
  destruct Hcases as [->|[->|[->|[->| ->]]]]; by destruct kind.
Qed.

Lemma penalty_table_antitone kind pos pos' :
  1 <= pos <= pos' -> penalty_table kind pos' <= penalty_table kind pos.
Proof.
  intros Hpos. unfold penalty_table.
  destruct kind; try done;
    repeat match goal with
           | |- context [?x =? ?y] => destruct (Z.eqb_spec x y)
           end; lia.
Qed.

Lemma penalty_table_double pos :
  penalty_table Insertion pos = 2 * penalty_table Substitution pos.
Proof.
  unfold penalty_table.
  repeat match goal with
         | |- context [?x =? ?y] => destruct (Z.eqb_spec x y)
         end; lia.
Qed.

End PenaltyEdges.

(** X5.  [penalty_for] away from the positions the matcher reports: the
    kind [exact] costs nothing at any position; for an edit, a position
    below -4 makes the table access raise [IndexError], a position from -4
    to 0 wraps around to the penalty of that position plus 5, and every
    position from 6 on costs what position 5 costs.  From position 1 on a
    later edit never costs more than an earlier one, and an insertion or a
    deletion costs exactly twice a substitution at the same position. *)
Theorem penalty_for_edges (kind : EditKind) (pos : Z) :
  penalty_for Exact pos = Ok 0 ∧
  (kind ≠ Exact ->
     (penalty_for kind pos = Raise IndexError <-> pos < -4) ∧
     (-4 <= pos <= 0 -> penalty_for kind pos = penalty_for kind (pos + 5)) ∧
     (5 <= pos -> penalty_for kind pos = penalty_for kind 5) ∧
     (∀ pos' p p', 1 <= pos <= pos' ->
                   penalty_for kind pos = Ok p ->
                   penalty_for kind pos' = Ok p' -> p' <= p)) ∧
  (1 <= pos ->
     penalty_for Deletion pos = penalty_for Insertion pos ∧
     ∃ p, penalty_for Substitution pos = Ok p ∧
          penalty_for Insertion pos = Ok (2 * p)).
Proof.
  split_and!; [done| |].
  - intros Hk. split_and!.
    + split; [|by apply penalty_for_small].
      intros Hraise. destruct (Z.lt_ge_cases pos (-4)) as [|Hge]; [done|].
      exfalso. destruct (Z.le_gt_cases pos 0) as [Hle|Hgt].
      * rewrite penalty_for_wrap in Hraise by lia.
        rewrite penalty_for_table in Hraise by lia. done.
      * rewrite penalty_for_table in Hraise by lia. done.
    + apply penalty_for_wrap.
    + intros Hpos. rewrite !penalty_for_table by lia. f_equal.
      unfold penalty_table.
      destruct kind; try done;
        repeat match goal with
               | |- context [?x =? ?y] => destruct (Z.eqb_spec x y)
               end; lia.
    + intros pos' p p' Hpos. rewrite !penalty_for_table by lia.
      intros [= <-] [= <-]. by apply penalty_table_antitone.
  - intros Hpos. split; [done|].
    exists (penalty_table Substitution pos).
    rewrite !penalty_for_table by done. by rewrite penalty_table_double.
Qed.


(** *** What a build adds *)

Section BuildAdds.

Lemma ingest_line_sentences path self il :
  sentences (ingest_line path self il)
  = sentences self ++ option_list (line_record path il).
Proof.
  unfold ingest_line, line_record.
  destruct (strip il.2); simpl; [by rewrite app_nil_r|done].
Qed.

Lemma ingest_lines_sentences path ils self :
  sentences (foldl (ingest_line path) self ils)
  = sentences self ++ omap (line_record path) ils.
Proof.
  revert self. induction ils as [|il ils IH]; intros self; simpl.
  { by rewrite app_nil_r. }
  rewrite IH, ingest_line_sentences, <- app_assoc. f_equal.
  by destruct (line_record path il).
Qed.

Lemma build_file_sentences d self f :
  sentences (build_file d self f) = sentences self ++ file_records d f.
Proof.
  unfold build_file, file_records.
  destruct (endswith (lower f.1) (lit ".txt")); simpl.
  - apply ingest_lines_sentences.
  - by rewrite app_nil_r.
Qed.

Lemma build_files_sentences d fs self :
  sentences (foldl (build_file d) self fs)
  = sentences self ++ (f ← fs; file_records d f).
Proof.
  revert self. induction fs as [|f fs IH]; intros self; simpl.
  { by rewrite app_nil_r. }
  by rewrite IH, build_file_sentences, <- app_assoc.
Qed.

Lemma build_from_folder_sentences self walk :
  sentences (build_from_folder self walk)
  = sentences self ++ walk_records walk.
Proof.
  unfold build_from_folder, walk_records.
  revert self. induction walk as [|d walk IH]; intros self; simpl.
  { by rewrite app_nil_r. }
  by rewrite IH, build_files_sentences, <- app_assoc.
Qed.

Lemma index_get_setdefault_append_prefix (k : str) (v : Z)
    (m : gmap str (list Z)) (k' : str) :
  index_get m k' `prefix_of` index_get (setdefault_append k v m) k'.
Proof.
  rewrite index_get_setdefault_append. case_decide; [subst|done].
  by apply prefix_app_r.
Qed.

Lemma index_word_prefix (idx : Z) (m : gmap str (list Z)) (w k : str) :
  index_get m k `prefix_of` index_get (index_word idx m w) k.
Proof.
  unfold index_word.
  destruct ((length w =? 1) || (length w =? 2))%nat.
  { apply index_get_setdefault_append_prefix. }
  destruct (3 <=? length w)%nat; [|done].
  generalize (seq 0 (length w - 3 + 1)). intros js. revert m.
  induction js as [|j js IH]; intros m; simpl; [done|].
  etrans; [|apply IH]. apply index_get_setdefault_append_prefix.
Qed.

Lemma ingest_line_index_prefix path self il (k : str) :
  index_get (word_index self) k
    `prefix_of` index_get (word_index (ingest_line path self il)) k.
Proof.
  unfold ingest_line. destruct (strip il.2) as [|c t]; [done|]. simpl.
  generalize (split (normalize_text (c :: t))). intros ws.
  generalize (word_index self). intros m. revert m.
  induction ws as [|w ws IH]; intros m; simpl; [done|].
  etrans; [|apply IH]. apply index_word_prefix.
Qed.

Lemma build_from_folder_index_prefix self walk (k : str) :
  index_get (word_index self) k
    `prefix_of` index_get (word_index (build_from_folder self walk)) k.
Proof.
  apply (build_from_folder_ind
           (fun self' => index_get (word_index self) k
                           `prefix_of` index_get (word_index self') k));
    [|done].
  intros path self' il Hpre. etrans; [exact Hpre|].
  apply ingest_line_index_prefix.
Qed.

End BuildAdds.

(** X6.  A build only appends.  The sentence list after it is the list
    before it followed by one record (stripped text, full path, 0-based
    line number) for every line that is not blank of every file whose name
    ends in [.txt], in traversal order; so sentences keep their
    identifiers, and files of other names and blank lines add nothing.
    Every list of identifiers in the index is extended at its end. *)
Theorem build_from_folder_appends (self : AutoCompleteSystem) (walk : Walk) :
  sentences (build_from_folder self walk)
    = sentences self ++ walk_records walk ∧
  (∀ idx rec, sentences self !! idx = Some rec ->
              sentences (build_from_folder self walk) !! idx = Some rec) ∧
  (∀ k : str, index_get (word_index self) k
       `prefix_of` index_get (word_index (build_from_folder self walk)) k) ∧
  (∀ d f, endswith (lower f.1) (lit ".txt") = false ->
          build_file d self f = self) ∧
  (∀ path il, Forall (fun c => is_space c = true) il.2 ->
              ingest_line path self il = self).
Proof.
  split_and!.
  - apply build_from_folder_sentences.
  - intros idx rec Hidx. rewrite build_from_folder_sentences.
    by apply lookup_app_l_Some.
  - apply build_from_folder_index_prefix.
  - intros d f Hf. unfold build_file. by rewrite Hf.
  - intros path il Hblank. unfold ingest_line.
    assert (strip il.2 = []) as ->; [|done].
    unfold strip.
    assert (Hl : ∀ t, Forall (fun c => is_space c = true) t -> lstrip t = []).
    { induction 1 as [|c t Hc _ IH]; [done|]. simpl. by rewrite Hc. }
    by rewrite (Hl _ Hblank).
Qed.

(** *** The index of a built system *)

Section IndexCorrect.

Context {SO : SetOrder} {OUT : Stdout}.

Lemma foldl_windows_get_iff (idx : Z) (w : str) (js : list nat)
    (m : gmap str (list Z)) (k : str) (x : Z) :
  x ∈ index_get
        (foldl (fun m j => setdefault_append (slice w j (j + 3)) idx m) m js)
        k <->
  x ∈ index_get m k ∨ (x = idx ∧ ∃ j, j ∈ js ∧ k = slice w j (j + 3)).
Proof.
  revert m. induction js as [|j js IH]; intros m; simpl.
  { split; [by left|]. intros [?|(_ & j & Hj & _)]; [done|].
    by apply elem_of_nil in Hj. }
  rewrite IH, index_get_setdefault_append. split.
  - intros [Hx|(-> & j' & Hj' & ->)].
    + case_decide as Hk; [|by left]. subst k.
      apply elem_of_app in Hx as [Hx|Hx]; [by left|].
      apply list_elem_of_singleton in Hx. right. split; [done|].
      exists j. split; [by left|done].
    + right. split; [done|]. exists j'. split; [by right|done].
  - intros [Hx|(-> & j' & [->|Hj']%elem_of_cons & ->)].
    + left. case_decide; [|done]. subst. apply elem_of_app. by left.
    + left. rewrite decide_True by done. apply elem_of_app. right. by left.
    + right. split; [done|]. by exists j'.
Qed.

Lemma index_word_get_iff (idx : Z) (m : gmap str (list Z)) (w k : str)
    (x : Z) :
  x ∈ index_get (index_word idx m w) k <->
  x ∈ index_get m k ∨ (x = idx ∧ key_of_word w k).
Proof.
  unfold index_word, key_of_word.
  destruct ((length w =? 1) || (length w =? 2))%nat eqn:Hshort.
  - apply orb_true_iff in Hshort. rewrite !Nat.eqb_eq in Hshort.
    rewrite index_get_setdefault_append. split.
    + case_decide as Hk; [|by left]. subst k.
      intros [Hx|Hx]%elem_of_app; [by left|].
      apply list_elem_of_singleton in Hx. right. split; [done|]. by left.
    + intros [Hx|(-> & [[_ ->]|[Hl _]])]; [..|lia].
      * case_decide; [|done]. subst. apply elem_of_app. by left.
      * rewrite decide_True by done. apply elem_of_app. right. by left.
  - apply orb_false_iff in Hshort. rewrite !Nat.eqb_neq in Hshort.
    destruct (Nat.leb_spec 3 (length w)) as [Hl|Hl].
    + rewrite foldl_windows_get_iff. setoid_rewrite elem_of_seq. split.
      * intros [?|(-> & j & Hj & ->)]; [by left|].
        right. split; [done|]. right. split; [done|].
        exists j. split; [lia|done].
      * intros [?|(-> & [[Hs _]|(_ & j & Hj & ->)])]; [by left|lia|].
        right. split; [done|]. exists j. split; [lia|done].
    + split; [by left|].
      intros [?|(_ & [[Hs _]|[Hl' _]])]; [done|lia|lia].
Qed.

Lemma index_words_get_iff (idx : Z) (ws : list str) (m : gmap str (list Z))
    (k : str) (x : Z) :
  x ∈ index_get (foldl (index_word idx) m ws) k <->
  x ∈ index_get m k ∨ (x = idx ∧ ∃ w, w ∈ ws ∧ key_of_word w k).
Proof.
  revert m. induction ws as [|w ws IH]; intros m; simpl.
  { split; [by left|]. intros [?|(_ & w & Hw & _)]; [done|].
    by apply elem_of_nil in Hw. }
  rewrite IH, index_word_get_iff. split.
  - intros [[Hx|[-> Hk]]|(-> & w' & Hw' & Hk)].
    + by left.
    + right. split; [done|]. exists w. split; [by left|done].
    + right. split; [done|]. exists w'. split; [by right|done].
  - intros [Hx|(-> & w' & [->|Hw']%elem_of_cons & Hk)].
    + left. by left.
    + left. by right.
    + right. split; [done|]. by exists w'.
Qed.

Lemma index_correct_init : index_correct init.
Proof.
  intros k idx. unfold index_get. simpl. rewrite lookup_empty. simpl. split.
  - intros H. by apply elem_of_nil in H.
  - intros (_ & text & src & off & w & H & _). by rewrite lookup_nil in H.
Qed.

Lemma index_correct_ingest_line path self il :
  index_correct self -> index_correct (ingest_line path self il).
Proof.
  intros Hinv. unfold ingest_line.
  destruct (strip il.2) as [|c t] eqn:Hstrip; [done|].
  intros k idx. simpl. rewrite index_words_get_iff, (Hinv k idx).
  set (n := length (sentences self)). split.
  - intros [(Hpos & text & src & off & w & Hlook & Hw & Hk)|(-> & w & Hw & Hk)].
    + split; [done|]. exists text, src, off, w. split_and!; try done.
      by apply lookup_app_l_Some.
    + split; [lia|]. exists (c :: t), path, (Z.of_nat il.1), w.
      split_and!; try done.
      rewrite Nat2Z.id. by rewrite list_lookup_middle.
  - intros (Hpos & text & src & off & w & Hlook & Hw & Hk).
    destruct (decide (Z.to_nat idx < n)%nat) as [Hlt|Hge].
    + left. split; [done|]. exists text, src, off, w. split_and!; try done.
      by rewrite lookup_app_l in Hlook.
    + right. rewrite lookup_app_r in Hlook by lia. fold n in Hlook.
      destruct (Z.to_nat idx - n)%nat as [|?] eqn:Hd; [|done].
      simpl in Hlook. injection Hlook as <- <- <-.
      split; [lia|]. by exists w.
Qed.

Lemma index_correct_builds self walks :
  index_correct self -> index_correct (foldl build_from_folder self walks).
Proof.
  revert self. induction walks as [|walk walks IH]; intros self Hinv; [done|].
  simpl. apply IH. revert Hinv. apply build_from_folder_ind.
  intros. by apply index_correct_ingest_line.
Qed.



End IndexCorrect.

(** X7.  After any sequence of builds from the empty system the index is
    exact, identifiers included: sentence [idx] is filed under key [k]
    exactly when [idx] is a position of the sentence list and some word of
    that sentence's normalised text has [k] as a key (the word itself if
    it has one or two characters, one of its three-character windows
    otherwise). *)
Theorem built_index_correct (walks : list Walk) :
  index_correct (foldl build_from_folder init walks).
Proof. apply index_correct_builds, index_correct_init. Qed.


(** *** Candidates of a built system *)

Section CandidatesComplete.

Context {SO : SetOrder}.

(** A block without whitespace at the front of a text is the front of the
    text's first word. *)
Lemma split_head_block u post :
  u ≠ [] -> Forall (fun c => is_space c = false) u ->
  ∃ b ws, split (u ++ post) = (u ++ b) :: ws.
Proof.
  intros Hne Hu. induction Hu as [|c u Hc Hu IH]; [done|]. clear Hne.
  change ((c :: u) ++ post) with (c :: (u ++ post)).
  rewrite split_unfold, Hc.
  destruct u as [|c' u'].
  - simpl. destruct post as [|d post']; [by exists [], []|].
    destruct (is_space d); [by exists [], (split (d :: post'))|].
    destruct (split (d :: post')) as [|w ws]; [by exists [], []|].
    by exists w, ws.
  - change ((c' :: u') ++ post) with (c' :: (u' ++ post)) in *.
    inversion Hu as [|? ? Hc' _]; subst. rewrite Hc'.
    destruct IH as (b & ws & ->); [done|]. by exists b, ws.
Qed.

(** A block without whitespace anywhere in a text lies inside one of the
    text's words. *)
Lemma block_in_word pre u post :
  u ≠ [] -> Forall (fun c => is_space c = false) u ->
  ∃ w a b, w ∈ split (pre ++ u ++ post) ∧ w = a ++ u ++ b.
Proof.
  intros Hne Hu. induction pre as [|c pre IH].
  { destruct (split_head_block u post Hne Hu) as (b & ws & Hs).
    exists (u ++ b), [], b. simpl. rewrite Hs. split; [by left|done]. }
  destruct IH as (w & a & b & Hw & ->).
  change ((c :: pre) ++ u ++ post) with (c :: (pre ++ u ++ post)).
  rewrite split_unfold.
  destruct (is_space c); [by exists (a ++ u ++ b), a, b|].
  destruct (pre ++ u ++ post) as [|d t] eqn:Ht.
  { by apply elem_of_nil in Hw. }
  destruct (is_space d).
  { exists (a ++ u ++ b), a, b. split; [by right|done]. }
  destruct (split (d :: t)) as [|w0 ws]; [by apply elem_of_nil in Hw|].
  apply elem_of_cons in Hw as [<-|Hw].
  - exists (c :: a ++ u ++ b), (c :: a), b. split; [by left|done].
  - exists (a ++ u ++ b), a, b. split; [by right|done].
Qed.

Lemma join_head (w : str) ws :
  ∃ tail, join (lit " ") (w :: ws) = w ++ tail.
Proof.
  destruct ws as [|w' ws'].
  - exists []. simpl. by rewrite app_nil_r.
  - by exists (lit " " ++ join (lit " ") (w' :: ws')).
Qed.

(** A sentence that contains the query has a word with the anchor of the
    query among its three-character windows. *)
Lemma containing_sentence_has_key q s w rest :
  split (normalize_text q) = w :: rest -> (3 <= length w)%nat ->
  contains (normalize_text q) s = true ->
  ∃ w', w' ∈ split s ∧ key_of_word w' (take 3 w).
Proof.
  intros Hsplit Hlen (pre & post & ->)%contains_spec.
  assert (Hword : is_word w).
  { pose proof (split_words (normalize_text q)) as Hws.
    rewrite Hsplit in Hws. by inversion Hws. }
  destruct Hword as [_ Hnsp].
  assert (Hq : ∃ tail, normalize_text q = take 3 w ++ tail).
  { destruct (join_head w rest) as [tail Htail].
    exists (drop 3 w ++ tail).
    rewrite app_assoc, take_drop, <- Htail, <- Hsplit.
    unfold normalize_text at 1. by rewrite <- normalize_text_words. }
  destruct Hq as [tail ->].
  assert (Hu : Forall (fun c => is_space c = false) (take 3 w))
    by (by apply Forall_take).
  assert (Hune : take 3 w ≠ []).
  { destruct w as [|? [|? [|? ?]]]; simpl in *; [lia..|done]. }
  destruct (block_in_word pre (take 3 w) (tail ++ post) Hune Hu)
    as (w' & a & b & Hw' & Heq).
  exists w'. rewrite <- !app_assoc. split; [done|].
  assert (Hl3 : length (take 3 w) = 3%nat) by (rewrite length_take; lia).
  right. subst w'. rewrite !length_app, Hl3. split; [lia|].
  exists (length a). split; [lia|].
  unfold slice. rewrite drop_app_length.
  replace (length a + 3 - length a)%nat with 3%nat by lia.
  by rewrite take_app_length' by done.
Qed.

Lemma indexed_candidate self q w rest i text src off :
  index_correct self ->
  split (normalize_text q) = w :: rest -> (3 <= length w)%nat ->
  sentences self !! i = Some (text, src, off) ->
  contains (normalize_text q) (normalize_text text) = true ->
  Z.of_nat i ∈ candidate_idxs self w.
Proof.
  intros Hinv Hsplit Hlen Hi Hc.
  destruct (containing_sentence_has_key q _ w rest Hsplit Hlen Hc)
    as (w' & Hw' & Hkey).
  assert (Hin : Z.of_nat i ∈ index_get (word_index self) (take 3 w)).
  { apply Hinv. split; [lia|]. exists text, src, off, w'.
    by rewrite Nat2Z.id. }
  rewrite (candidate_idxs_long self w Hlen).
  destruct (index_get (word_index self) (take 3 w)); [|done].
  by apply elem_of_nil in Hin.
Qed.

End CandidatesComplete.

(** X9.  In a system built by any sequence of builds from the empty
    system, when the first word of the normalised query has three or more
    characters, every stored sentence whose normalised text contains the
    normalised query is among the candidates: the index lookup loses no
    containment match. *)
Theorem built_candidates_complete `{SO : SetOrder} (walks : list Walk)
    (q w : str) (rest : list str) (i : nat) (text src : str) (off : Z) :
  split (normalize_text q) = w :: rest -> (3 <= length w)%nat ->
  sentences (foldl build_from_folder init walks) !! i
    = Some (text, src, off) ->
  contains (normalize_text q) (normalize_text text) = true ->
  Z.of_nat i ∈ candidate_idxs (foldl build_from_folder init walks) w.
Proof.
  apply indexed_candidate, index_correct_builds, index_correct_init.
Qed.

Lemma built_candidates_complete_witness :
  let walks := [[(lit "corpus",
                  [(lit "test.txt", [Examples.hamlet_line])])]] in
  let q := lit "Not to" in
  split (normalize_text q) = [lit "not"; lit "to"] ∧
  (3 <= length (lit "not"))%nat ∧
  sentences (foldl build_from_folder init walks) !! 0%nat
    = Some (Examples.hamlet_line, lit "corpus/test.txt", 0) ∧
  contains (normalize_text q) (normalize_text Examples.hamlet_line) = true ∧
  0 ∈ @candidate_idxs dedup_order (foldl build_from_folder init walks)
        (lit "not").
Proof.
  split_and!; [reflexivity|simpl; lia|reflexivity|reflexivity|].
  exact (@built_candidates_complete dedup_order
           [[(lit "corpus", [(lit "test.txt", [Examples.hamlet_line])])]]
           (lit "Not to") (lit "not") [lit "to"] 0%nat
           Examples.hamlet_line (lit "corpus/test.txt") 0
           eq_refl (le_n 3) eq_refl eq_refl).
Defined.

(** *** What a returned entry stands for *)

Section ResultsSound.

Context {SO : SetOrder}.

(** A candidate gets a score only when its text contains the query or one
    of its windows is a single edit away from it. *)
Lemma score_candidate_match q s sc :
  score_candidate q s = Ok (Some sc) ->
  contains q s = true ∨ some_window_edits q s.
Proof.
  unfold score_candidate, score_candidate_with.
  destruct (contains q s); [by left|].
  intros H. right.
  destruct (scan_lengths_spec q s (set_iter [len q; len q + 1; len q - 1]))
    as (r & Hr & Hspec).
  rewrite Hr in H. injection H as ->.
  destruct Hspec as (pre & L & post & st & k & p & HLs & HL & Hst & He & _).
  exists L, st, k, p. split_and!; [|done..].
  split; [|done].
  assert (HLin : L ∈ set_iter [len q; len q + 1; len q - 1]).
  { rewrite HLs, elem_of_app, elem_of_cons. tauto. }
  rewrite set_iter_elem in HLin. rewrite list_elem_of_In in *. simpl in *. lia.
Qed.

End ResultsSound.

(** X10.  A query never makes up an entry: the sentence, source and offset
    of every returned entry are those of one record of the sentence list,
    the normalised query is not empty, and the entry's normalised sentence
    either contains the normalised query or has a window, of the query's
    length or one more or less, that is a single edit away from it. *)
Theorem results_are_stored_matches `{SO : SetOrder} `{OUT : Stdout}
    (self : AutoCompleteSystem) (q : str) (l : list AutoCompleteData) :
  get_best_k_completions self q = Ok l ->
  ∀ r, r ∈ l ->
    normalize_text q ≠ [] ∧
    (completed_sentence r, source_text r, offset r) ∈ sentences self ∧
    (contains (normalize_text q) (normalize_text (completed_sentence r)) = true
     ∨ some_window_edits (normalize_text q)
         (normalize_text (completed_sentence r))).
Proof.
  intros Hl r Hr.
  destruct (result_origin self q l r Hl Hr) as (Hq & idx & Hidx & Hsc).
  split_and!; [done|by eapply py_index_elem|by eapply score_candidate_match].
Qed.

Lemma results_are_stored_matches_witness :
  @get_best_k_completions dedup_order latin1_stdout Examples.greetings (lit "hello w")
    = Ok Examples.greetings_hello_w ∧
  ∀ r, r ∈ Examples.greetings_hello_w ->
    normalize_text (lit "hello w") ≠ [] ∧
    (completed_sentence r, source_text r, offset r)
      ∈ sentences Examples.greetings ∧
    (contains (normalize_text (lit "hello w"))
       (normalize_text (completed_sentence r)) = true
     ∨ some_window_edits (normalize_text (lit "hello w"))
         (normalize_text (completed_sentence r))).
Proof.
  split; [exact greetings_hello_w_result|].
  exact (@results_are_stored_matches dedup_order latin1_stdout _ _ _
           greetings_hello_w_result).
Defined.

(** *** The entries that are left out *)

Section Best.

Context {SO : SetOrder}.

Lemma ranks_before_refl a : ranks_before a a.
Proof. right. split; [done|]. apply ltb_irrefl. Qed.

(** In a sorted list, the first occurrence of a sentence ranks before
    every entry with that sentence. *)
Lemma first_occurrence_ranks_first l y x :
  StronglySorted ranks_before l ->
  y ∈ first_occurrences ∅ l -> x ∈ l ->
  completed_sentence x = completed_sentence y ->
  ranks_before y x.
Proof.
  intros Hs Hy Hx Heq.
  destruct (first_occurrences_first _ _ _ Hy) as (pre & post & -> & Hpre).
  apply elem_of_app in Hx as [Hx|Hx].
  { exfalso. apply Hpre. rewrite <- Heq. by apply list_elem_of_fmap_2. }
  apply elem_of_cons in Hx as [->|Hx]; [apply ranks_before_refl|].
  apply StronglySorted_app_1_r, StronglySorted_inv in Hs as [_ Hall].
  rewrite Forall_forall in Hall. by apply Hall.
Qed.

Lemma kept_best results r x :
  r ∈ take 5 (first_occurrences ∅ (py_sort results)) -> x ∈ results ->
  completed_sentence x = completed_sentence r ->
  ranks_before r x.
Proof.
  intros Hr Hx Heq.
  apply (first_occurrence_ranks_first (py_sort results)); [..|done].
  - apply py_sort_sorted.
  - eapply elem_of_sublist; [exact Hr|apply sublist_take].
  - by rewrite py_sort_perm.
Qed.

Lemma left_out_ranks_last results x :
  x ∈ results ->
  completed_sentence x
    ∉ completed_sentence <$> take 5 (first_occurrences ∅ (py_sort results)) ->
  length (take 5 (first_occurrences ∅ (py_sort results))) = 5%nat ∧
  ∀ r, r ∈ take 5 (first_occurrences ∅ (py_sort results)) ->
       ranks_before r x.
Proof.
  set (sorted := py_sort results).
  set (kept := first_occurrences ∅ sorted).
  intros Hx Hout.
  assert (Hxs : x ∈ sorted) by (by unfold sorted; rewrite py_sort_perm).
  destruct (first_occurrences_cover ∅ sorted x Hxs) as [H|Hcov]; [set_solver|].
  fold kept in Hcov.
  apply list_elem_of_fmap in Hcov as (y & Heq & Hy).
  assert (Hyx : ranks_before y x).
  { by apply (first_occurrence_ranks_first sorted); [apply py_sort_sorted|..]. }
  assert (Hkept : StronglySorted ranks_before (take 5 kept ++ drop 5 kept)).
  { rewrite take_drop. eapply StronglySorted_sublist;
      [apply first_occurrences_sublist|apply py_sort_sorted]. }
  rewrite <- (take_drop 5 kept) in Hy.
  apply elem_of_app in Hy as [Hy|Hy].
  { exfalso. apply Hout. rewrite Heq. by apply list_elem_of_fmap_2. }
  split.
  - rewrite length_take. apply list_elem_of_lookup in Hy as [i Hi].
    apply lookup_lt_Some in Hi. rewrite length_drop in Hi. lia.
  - intros r Hr. eapply ranks_before_trans; [|exact Hyx].
    by eapply StronglySorted_app_1_elem_of.
Qed.

End Best.

(** X11.  Nothing better is left out.  Of the scored results of a query,
    the returned entries are some; a returned entry ranks before every
    other result for the same sentence (it carries that sentence's best
    score); and a result whose sentence is not returned exists only when
    five entries are returned, each of which ranks before it. *)
Theorem get_best_k_completions_best `{SO : SetOrder} `{OUT : Stdout}
    (self : AutoCompleteSystem) (q : str) (l : list AutoCompleteData) :
  get_best_k_completions self q = Ok l -> normalize_text q ≠ [] ->
  ∃ w results,
    py_index (split (normalize_text q)) 0 = Ok w ∧
    score_candidates self (normalize_text q) (candidate_idxs self w) []
      = Ok results ∧
    (∀ r, r ∈ l -> r ∈ results) ∧
    (∀ r x, r ∈ l -> x ∈ results ->
            completed_sentence x = completed_sentence r ->
            ranks_before r x ∧ score x <= score r) ∧
    (∀ x, x ∈ results -> completed_sentence x ∉ completed_sentence <$> l ->
          length l = 5%nat ∧
          ∀ r, r ∈ l -> ranks_before r x ∧ score x <= score r).
Proof.
  intros Hl Hq.
  apply get_best_k_completions_inv in Hl
    as [[Hq' _]|(_ & w & results & Hw & Hres & ->)]; [done|].
  assert (Hscore : ∀ a b, ranks_before a b ->
                          ranks_before a b ∧ score b <= score a).
  { intros a b Hab. split; [done|]. destruct Hab as [?|[? _]]; lia. }
  exists w, results. split_and!; [done..| | |].
  - intros r Hr. rewrite <- (py_sort_perm results).
    eapply elem_of_sublist; [exact Hr|].
    etrans; [apply sublist_take|apply first_occurrences_sublist].
  - intros r x Hr Hx Heq. by apply Hscore, (kept_best results).
  - intros x Hx Hout.
    destruct (left_out_ranks_last results x Hx Hout) as [Hlen Hall].
    split; [done|]. intros r Hr. by apply Hscore, Hall.
Qed.

Lemma get_best_k_completions_best_witness :
  @get_best_k_completions dedup_order latin1_stdout Examples.greetings (lit "hello w")
    = Ok Examples.greetings_hello_w ∧
  normalize_text (lit "hello w") ≠ [] ∧
  ∃ w results,
    py_index (split (normalize_text (lit "hello w"))) 0 = Ok w ∧
    @score_candidates dedup_order Examples.greetings
      (normalize_text (lit "hello w"))
      (@candidate_idxs dedup_order Examples.greetings w) [] = Ok results ∧
    (∀ r, r ∈ Examples.greetings_hello_w -> r ∈ results) ∧
    (∀ r x, r ∈ Examples.greetings_hello_w -> x ∈ results ->
            completed_sentence x = completed_sentence r ->
            ranks_before r x ∧ score x <= score r) ∧
    (∀ x, x ∈ results ->
          completed_sentence x
            ∉ completed_sentence <$> Examples.greetings_hello_w ->
          length Examples.greetings_hello_w = 5%nat ∧
          ∀ r, r ∈ Examples.greetings_hello_w ->
               ranks_before r x ∧ score x <= score r).
Proof.
  split; [exact greetings_hello_w_result|].
  assert (Hq : normalize_text (lit "hello w") ≠ []) by (vm_compute; done).
  split; [exact Hq|].
  exact (@get_best_k_completions_best dedup_order latin1_stdout _ _ _
           greetings_hello_w_result Hq).
Defined.

(** *** Queries that are answered alike *)

Section QueryNormalisation.

Context {SO : SetOrder} {OUT : Stdout}.

Lemma normalize_text_fixed s :
  normalize_text (normalize_text s) = normalize_text s.
Proof.
  unfold normalize_text at 1.
  rewrite translate_punct_clean by apply normalize_text_clean.
  rewrite lower_clean by apply normalize_text_clean.
  by rewrite normalize_text_words.
Qed.

Lemma translate_punct_twice s :
  translate_punct (translate_punct s) = translate_punct s.
Proof.
  induction s as [|c s IH]; [done|].
  unfold translate_punct in *. simpl.
  destruct (is_punct c) eqn:Hc; simpl; [done|]. by rewrite Hc, IH.
Qed.

Lemma normalize_text_translate_punct s :
  normalize_text (translate_punct s) = normalize_text s.
Proof. unfold normalize_text. by rewrite translate_punct_twice. Qed.

(** The query is used through its normalised text only. *)
Lemma get_best_k_completions_ext self q1 q2 :
  normalize_text q1 = normalize_text q2 ->
  get_best_k_completions self q1 = get_best_k_completions self q2.
Proof. intros H. by rewrite !get_best_k_completions_unfold, H. Qed.

End QueryNormalisation.

(** X12.  Only the normalised text of the query matters, and normalising
    again changes nothing: for every system, the normalised query and the
    query with its punctuation removed each get the outcome of the query
    itself (the same list, or the same exception). *)
Theorem query_normalisation_irrelevant `{SO : SetOrder} `{OUT : Stdout}
    (self : AutoCompleteSystem) (q : str) :
  get_best_k_completions self (normalize_text q)
    = get_best_k_completions self q ∧
  get_best_k_completions self (translate_punct q)
    = get_best_k_completions self q.
Proof.
  split; apply get_best_k_completions_ext.
  - apply normalize_text_fixed.
  - apply normalize_text_translate_punct.
Qed.

(** *** The interactive loop *)

Section MainLoop.

Context {SO : SetOrder} {OUT : Stdout}.

Lemma split_head_nonempty c t : is_space c = false -> split (c :: t) ≠ [].
Proof.
  intros Hc. rewrite split_unfold, Hc.
  destruct t as [|d t']; [done|].
  destruct (is_space d); [done|]. by destruct (split (d :: t')).
Qed.

(** Whitespace between two texts keeps their words apart. *)
Lemma split_app_space a c b :
  is_space c = true -> split (a ++ c :: b) = split a ++ split b.
Proof.
  intros Hc. induction a as [|x a IH].
  { change ([] ++ c :: b) with (c :: b). by rewrite split_unfold, Hc. }
  change ((x :: a) ++ c :: b) with (x :: (a ++ c :: b)).
  rewrite (split_unfold x (a ++ c :: b)), (split_unfold x a).
  destruct (is_space x); [done|].
  destruct a as [|d a'].
  { change ([] ++ c :: b) with (c :: b) in *. cbv iota.
    by rewrite Hc, IH. }
  change ((d :: a') ++ c :: b) with (d :: (a' ++ c :: b)) in *. cbv iota.
  destruct (is_space d) eqn:Hd; [by rewrite IH|].
  rewrite IH. pose proof (split_head_nonempty d a' Hd) as Hne.
  by destruct (split (d :: a')).
Qed.

Lemma words_of_app_space a b :
  words_of (a ++ lit " " ++ b) = words_of a ++ words_of b.
Proof.
  unfold words_of, translate_punct, lower.
  rewrite !List.filter_app, !List.map_app.
  exact (split_app_space _ " "%char _ eq_refl).
Qed.

Lemma words_of_append_input buffer user_in :
  words_of (append_input buffer user_in) = words_of buffer ++ words_of user_in.
Proof.
  unfold append_input. destruct buffer as [|c buffer]; [done|].
  change (negb (eqb (c :: buffer) [])) with true.
  destruct (startswith user_in (lit " ")) eqn:Hstart.
  - apply startswith_spec in Hstart as [post ->].
    change (true && negb true) with false. cbv iota.
    rewrite app_nil_l, (words_of_app_space (c :: buffer) post).
    done.
  - apply words_of_app_space.
Qed.

Lemma normalize_text_join_words s :
  normalize_text (join (lit " ") (words_of s)) = normalize_text s.
Proof. apply normalize_text_fixed. Qed.

Lemma main_round_inv acs buffer user_in buffer' out :
  main_round acs buffer user_in = Ok (buffer', out) ->
  (user_in = lit "#" ∧ buffer' = [] ∧ out = BufferReset) ∨
  (user_in ≠ lit "#" ∧ buffer' = append_input buffer user_in ∧
   ∃ l, get_best_k_completions acs buffer' = Ok l ∧ out = Completions l).
Proof.
  unfold main_round, eqb.
  destruct (print (prompt buffer)) as [[]|]; [|done].
  change (Ok tt ≫= ?f) with (f tt). cbv beta.
  case_bool_decide as Hreset.
  { destruct (print (lit "Buffer reset.")) as [[]|]; [|done].
    intros [= <- <-]. by left. }
  destruct (get_best_k_completions acs (append_input buffer user_in))
    as [l|] eqn:Hl; [|done].
  change (Ok l ≫= ?f) with (f l). cbv beta.
  destruct (print_completions 1 l) as [[]|]; [|done].
  intros [= <- <-]. right. split_and!; [done..|]. by exists l.
Qed.

Lemma main_loop_cons_inv acs buffer user_in rest buffer' outs :
  main_loop acs buffer (user_in :: rest) = Ok (buffer', outs) ->
  ∃ mid out outs',
    main_round acs buffer user_in = Ok (mid, out) ∧
    main_loop acs mid rest = Ok (buffer', outs') ∧
    outs = out :: outs'.
Proof.
  simpl. destruct (main_round acs buffer user_in) as [[mid out]|]; [|done].
  simpl. destruct (main_loop acs mid rest) as [[b outs']|] eqn:Hrest; [|done].
  simpl. intros [= <- <-]. by exists mid, out, outs'.
Qed.

Lemma typed_words_round acs buffer user_in mid out rest :
  main_round acs buffer user_in = Ok (mid, out) ->
  typed_words (words_of buffer) (user_in :: rest)
  = typed_words (words_of mid) rest.
Proof.
  intros Hround. simpl. unfold eqb.
  apply main_round_inv in Hround
    as [(-> & -> & _)|(Hne & -> & _)].
  - by rewrite bool_decide_eq_true_2.
  - by rewrite bool_decide_eq_false_2, words_of_append_input.
Qed.

Lemma main_loop_spec acs buffer inputs buffer' outs :
  main_loop acs buffer inputs = Ok (buffer', outs) ->
  words_of buffer' = typed_words (words_of buffer) inputs ∧
  ∀ i user_in, inputs !! i = Some user_in ->
    (user_in = lit "#" ∧ outs !! i = Some BufferReset) ∨
    (user_in ≠ lit "#" ∧
     ∃ l, outs !! i = Some (Completions l) ∧
          get_best_k_completions acs
            (join (lit " ")
               (typed_words (words_of buffer) (take (S i) inputs)))
          = Ok l).
Proof.
  revert buffer outs. induction inputs as [|u rest IH]; intros buffer outs.
  { intros [= <- <-]. split; [done|]. intros i x Hi.
    by rewrite lookup_nil in Hi. }
  intros (mid & out & outs' & Hround & Hloop & ->)%main_loop_cons_inv.
  destruct (IH _ _ Hloop) as (Hwords & Houts).
  split.
  - by rewrite (typed_words_round _ _ _ _ _ _ Hround).
  - intros [|i] x Hi.
    + injection Hi as ->. simpl take.
      rewrite (typed_words_round _ _ _ _ _ _ Hround). simpl typed_words.
      apply main_round_inv in Hround
        as [(-> & -> & ->)|(Hne & -> & l & Hl & ->)]; [by left|].
      right. split; [done|]. exists l. split; [done|].
      rewrite <- Hl. apply get_best_k_completions_ext.
      apply normalize_text_join_words.
    + change (take (S (S i)) (u :: rest)) with (u :: take (S i) rest).
      rewrite (typed_words_round _ _ _ _ _ _ Hround).
      by apply Houts.
Qed.

End MainLoop.

(** X13.  The buffer of the interactive loop keeps words apart.  When the
    rounds for the lines read complete, starting from the empty buffer,
    the normalised buffer is the words typed since the last reset, line by
    line, joined by single spaces: a word is never continued by the next
    line.  And the completions computed in a round that does not reset are
    those of [get_best_k_completions] for the words typed up to then,
    joined by single spaces: typing a query over several lines gives what
    typing its words on one line gives. *)
Theorem main_loop_words `{SO : SetOrder} `{OUT : Stdout}
    (acs : AutoCompleteSystem) (inputs : list str) (buffer : str)
    (outs : list round) :
  main_loop acs [] inputs = Ok (buffer, outs) ->
  normalize_text buffer = join (lit " ") (typed_words [] inputs) ∧
  ∀ i user_in, inputs !! i = Some user_in -> user_in ≠ lit "#" ->
    ∃ l, outs !! i = Some (Completions l) ∧
         get_best_k_completions acs
           (join (lit " ") (typed_words [] (take (S i) inputs)))
         = Ok l.
Proof.
  intros Hloop. apply main_loop_spec in Hloop as (Hwords & Houts).
  split.
  - unfold normalize_text. fold (words_of buffer). by rewrite Hwords.
  - intros i user_in Hi Hne.
    destruct (Houts i user_in Hi) as [[-> _]|[_ Hl]]; done.
Qed.

Lemma hamlet_session :
  @main_loop dedup_order latin1_stdout Examples.hamlet []
    [lit "To"; lit "#"; lit "to"; lit "Be,"]
  = Ok (lit "to Be,",
        [Completions [Examples.hamlet_entry 4]; BufferReset;
         Completions [Examples.hamlet_entry 4];
         Completions [Examples.hamlet_entry 10]]).
Proof. vm_compute. reflexivity. Qed.

Lemma main_loop_words_witness :
  @main_loop dedup_order latin1_stdout Examples.hamlet []
    [lit "To"; lit "#"; lit "to"; lit "Be,"]
  = Ok (lit "to Be,",
        [Completions [Examples.hamlet_entry 4]; BufferReset;
         Completions [Examples.hamlet_entry 4];
         Completions [Examples.hamlet_entry 10]]) ∧
  normalize_text (lit "to Be,")
  = join (lit " ") (typed_words [] [lit "To"; lit "#"; lit "to"; lit "Be,"]).
Proof.
  split; [exact hamlet_session|].
  exact (proj1 (@main_loop_words dedup_order latin1_stdout _ _ _ _
                  hamlet_session)).
Defined.

(** The bound of three characters in the completeness of the candidates
    is needed: a first word of two characters is looked up whole, so a
    sentence that contains the query across the end of a longer word is
    not a candidate as soon as the short word is a key. *)
Lemma short_first_word_can_miss :
  let corpus :=
    build_from_folder init
      [(lit "corpus", [(lit "test.txt", [lit "to x" ++ Examples.newline;
                                         lit "onto be"])])] in
  contains (normalize_text (lit "to be")) (normalize_text (lit "onto be"))
    = true ∧
  sentences corpus !! 1%nat = Some (lit "onto be", lit "corpus/test.txt", 1) ∧
  @candidate_idxs dedup_order corpus (lit "to") = [0] ∧
  @get_best_k_completions dedup_order latin1_stdout corpus (lit "to be") = Ok [].
Proof. vm_compute. done. Qed.
